(** * EstimNetDirected: the basic sampler and the equilibrium-expectation
      estimator (basicSampler.c, equilibriumExpectation.c)

    A shallow embedding of [basicSampler], [algorithm_S], [algorithm_EE],
    [ee_estimate] and [do_estimation], with the properties of the
    specification stated and proved over it.

    Conventions of the embedding.
    - A C [double] is a value of [double] below: an exact rational or one of
      the IEEE 754 special values.  Rounding, overflow of finite values and
      the sign of zero are not represented.
    - A [uint_t] is a natural number where the source only counts or indexes
      with it, and an integer modulo [2^32] where the source's arithmetic may
      wrap (the row index [t - M1], the product [M1_steps * num_nodes]).
    - The pseudo random generator is a tape of the values it returns.
    - A failed [assert] and an exhausted tape are outcomes of their own. *)

From Stdlib Require Import QArith Qcanon ZArith List Lia String Ascii DecimalString.
From stdpp Require Import base numbers gmap list.
Import ListNotations.

Local Open Scope Qc_scope.

(** ** Doubles *)

Inductive double : Type :=
| Fin (q : Qc)
| PInf
| NInf
| NaN.

Declare Scope double_scope.
Delimit Scope double_scope with D.
Bind Scope double_scope with double.

Global Instance double_eq_dec : EqDecision double.
Proof. solve_decision. Defined.

Definition dzero : double := Fin 0.
Definition done_ : double := Fin 1.
Definition dminus_one : double := Fin (- 1).

(** The infinity (or NaN) that a product or quotient with an infinite factor
    takes, from the sign of the other factor. *)
Definition inf_of_sign (c : comparison) : double :=
  match c with
  | Gt => PInf
  | Lt => NInf
  | Eq => NaN
  end.

Definition dneg (x : double) : double :=
  match x with
  | Fin a => Fin (- a)
  | PInf => NInf
  | NInf => PInf
  | NaN => NaN
  end.

Definition dadd (x y : double) : double :=
  match x, y with
  | NaN, _ | _, NaN => NaN
  | Fin a, Fin b => Fin (a + b)
  | PInf, NInf | NInf, PInf => NaN
  | PInf, _ | _, PInf => PInf
  | NInf, _ | _, NInf => NInf
  end.

Definition dsub (x y : double) : double := dadd x (dneg y).

Definition dmul (x y : double) : double :=
  match x, y with
  | NaN, _ | _, NaN => NaN
  | Fin a, Fin b => Fin (a * b)
  | Fin a, PInf | PInf, Fin a => inf_of_sign (a ?= 0)
  | Fin a, NInf | NInf, Fin a => inf_of_sign (CompOpp (a ?= 0))
  | PInf, PInf | NInf, NInf => PInf
  | PInf, NInf | NInf, PInf => NInf
  end.

(** Division; a zero divisor is taken as [+0]. *)
Definition ddiv (x y : double) : double :=
  match x, y with
  | NaN, _ | _, NaN => NaN
  | Fin a, Fin b =>
      if decide (b = 0) then inf_of_sign (a ?= 0) else Fin (a / b)
  | Fin _, (PInf | NInf) => Fin 0
  | PInf, Fin b => if decide (b < 0) then NInf else PInf
  | NInf, Fin b => if decide (b < 0) then PInf else NInf
  | (PInf | NInf), (PInf | NInf) => NaN
  end.

(** [x < y] on doubles: false as soon as one side is NaN. *)
Definition dltb (x y : double) : bool :=
  match x, y with
  | NaN, _ | _, NaN => false
  | Fin a, Fin b => bool_decide (a < b)
  | _, NInf => false
  | NInf, _ => true
  | PInf, _ => false
  | Fin _, PInf => true
  end.

(** [x <= y] on doubles. *)
Definition dleb (x y : double) : bool :=
  match x, y with
  | NaN, _ | _, NaN => false
  | Fin a, Fin b => bool_decide (a ≤ b)
  | NInf, _ => true
  | _, PInf => true
  | _, NInf => false
  | PInf, _ => false
  end.

Definition dabs (x : double) : double :=
  match x with
  | Fin a => if decide (a < 0) then Fin (- a) else Fin a
  | PInf | NInf => PInf
  | NaN => NaN
  end.

Definition is_finite (x : double) : bool :=
  match x with Fin _ => true | _ => false end.

Definition is_nan (x : double) : bool :=
  match x with NaN => true | _ => false end.

(** [(double) n] for an unsigned [n]. *)
Definition of_nat (n : nat) : double := Fin (Qc_of_Z (Z.of_nat n)).

Infix "+" := dadd : double_scope.
Infix "-" := dsub : double_scope.
Infix "*" := dmul : double_scope.
Infix "/" := ddiv : double_scope.
Notation "- x" := (dneg x) : double_scope.
Infix "<?" := dltb : double_scope.
Infix "<=?" := dleb : double_scope.

(** ** Unsigned machine integers *)

(** Modelled from the spec: the width of [uint_t], whose declaration in
    [utils.h] is outside the embedded sources.  The conversions the sources
    print it with ([%u], and [%d] for the difference [t - M1]) are those of
    [unsigned int] and [int]: 32 bits. *)
Definition uint_bits : Z := 32.
Definition uint_modulus : Z := 2 ^ uint_bits.

(** Arithmetic on [uint_t] is modulo [2^32]. *)
Definition wrap (z : Z) : Z := z mod uint_modulus.

(** What [printf("%d", u)] shows for an unsigned [u]: its bits read as a
    two's complement [int]. *)
Definition as_signed (u : Z) : Z :=
  if decide (u < 2 ^ (uint_bits - 1))%Z then u else (u - uint_modulus)%Z.

(** ** Outcomes of a run *)

Inductive outcome (A : Type) : Type :=
| Ok (a : A)
| AssertFailed
| NoDraw
| DivideByZero.
Arguments Ok {A} a.
Arguments AssertFailed {A}.
Arguments NoDraw {A}.
Arguments DivideByZero {A}.

Global Instance outcome_ret : MRet outcome := λ A a, Ok a.

Global Instance outcome_bind : MBind outcome := λ A B k m,
  match m with
  | Ok a => k a
  | AssertFailed => AssertFailed
  | NoDraw => NoDraw
  | DivideByZero => DivideByZero
  end.

(** [assert(b)] *)
Definition assert (b : bool) : outcome unit :=
  if b then Ok tt else AssertFailed.

(** ** The pseudo random generator *)

(** Modelled from the spec: the state of the generator of [utils.c], which
    is outside the embedded sources.  A run is determined by the values the
    generator returns, in order: the tape.  A tape whose next value is
    outside the range the generator can return, or which is exhausted,
    describes no run. *)
Record rng : Type := mk_rng {
  ints : list nat;
  unifs : list Qc
}.

(** Modelled from the spec: [int_urand(n)] of [utils.c] returns an integer
    drawn uniformly from [0 .. n-1]. *)
Definition int_urand (n : nat) (r : rng) : outcome (nat * rng) :=
  match ints r with
  | [] => NoDraw
  | x :: xs =>
      if decide (x < n)%nat then Ok (x, mk_rng xs (unifs r)) else NoDraw
  end.

(** Modelled from the spec: [urand()] of [utils.c] returns a double drawn
    uniformly from the open unit interval. *)
Definition urand (r : rng) : outcome (double * rng) :=
  match unifs r with
  | [] => NoDraw
  | u :: us =>
      if decide (0 < u ∧ u < 1) then Ok (Fin u, mk_rng (ints r) us)
      else NoDraw
  end.

(** ** The digraph store *)

(** Modelled from the spec: the [digraph_t] of [digraph.c], which is outside
    the embedded sources (section 4.1 and the data model of section 3).  The
    adjacency structure is the set of arcs.  The snowball fields are the zone
    of each node, the largest zone, the nodes of the inner zones, and
    [prev_wave_degree]: the number of neighbours of a node, arc direction
    ignored, in the zone just before its own.  The flat list [allarcs] is a
    field of its own.  The two-path counts are functions of the arc set and
    are left to the change statistics that read them. *)
Record digraph : Type := mk_digraph {
  num_nodes : nat;
  arcs : gset (nat * nat);
  allarcs : list (nat * nat);
  zone : list nat;
  max_zone : nat;
  inner_nodes : list nat;
  prev_wave_degree : list nat
}.

Definition num_inner_nodes (g : digraph) : nat := length (inner_nodes g).

(** Modelled from the spec: [isArc] of [digraph.c] queries the adjacency
    structure. *)
Definition isArc (g : digraph) (i j : nat) : bool :=
  bool_decide ((i, j) ∈ arcs g).

(** Modelled from the spec: [isArcIgnoreDirection] of [digraph.c] holds when
    there is an arc between the two nodes in either direction. *)
Definition isArcIgnoreDirection (g : digraph) (i j : nat) : bool :=
  isArc g i j || isArc g j i.

Definition zone_of (g : digraph) (i : nat) : nat := nth i (zone g) 0%nat.

Definition prev_wave_degree_of (g : digraph) (i : nat) : nat :=
  nth i (prev_wave_degree g) 0%nat.

(** [u] gains (loses) [v] as a neighbour in its preceding wave. *)
Definition bump_prev_wave (f : nat → nat) (g : digraph) (u v : nat)
    (pwd : list nat) : list nat :=
  if decide (zone_of g v + 1 = zone_of g u)%nat then alter f u pwd else pwd.

(** Modelled from the spec: [insertArc] of [digraph.c] adds the arc to the
    adjacency structure and keeps [prev_wave_degree] in step with it; it does
    not write the flat list. *)
Definition insertArc (g : digraph) (i j : nat) : digraph :=
  let fresh := negb (isArcIgnoreDirection g i j) in
  let pwd := prev_wave_degree g in
  mk_digraph (num_nodes g) ({[ (i, j) ]} ∪ arcs g) (allarcs g)
    (zone g) (max_zone g) (inner_nodes g)
    (if fresh then bump_prev_wave S g j i (bump_prev_wave S g i j pwd)
     else pwd).

(** Modelled from the spec: [removeArc] of [digraph.c] removes the arc from
    the adjacency structure and keeps [prev_wave_degree] in step with it; it
    does not write the flat list. *)
Definition removeArc (g : digraph) (i j : nat) : digraph :=
  let gone := negb (isArc g j i) in
  let pwd := prev_wave_degree g in
  mk_digraph (num_nodes g) (arcs g ∖ {[ (i, j) ]}) (allarcs g)
    (zone g) (max_zone g) (inner_nodes g)
    (if gone
     then bump_prev_wave Nat.pred g j i (bump_prev_wave Nat.pred g i j pwd)
     else pwd).

(** The flat list describes the graph when it lists exactly its arcs. *)
Definition allarcs_consistent (g : digraph) : Prop :=
  list_to_set (allarcs g) = arcs g.

(** ** Change statistics

    The sampler takes the change statistics as arguments.  A change statistic
    reads the graph and returns the change of its statistic when the arc
    [i -> j] is added. *)

Definition change_stats_func : Type := digraph → nat → nat → double.
Definition attr_change_stats_func : Type := digraph → nat → nat → nat → double.
Definition dyadic_change_stats_func : Type := digraph → nat → nat → double.

(** The arrays of function pointers the sampler is called with.  The number
    [n] of parameters is the total length; [n - n_attr - n_dyadic] is the
    length of the structural array. *)
Record effects : Type := mk_effects {
  change_stats_funcs : list change_stats_func;
  attr_change_stats_funcs : list attr_change_stats_func;
  attr_indices : list nat;
  dyadic_change_stats_funcs : list dyadic_change_stats_func
}.

Definition n_attr (e : effects) : nat := length (attr_change_stats_funcs e).
Definition n_dyadic (e : effects) : nat := length (dyadic_change_stats_funcs e).
Definition n_params (e : effects) : nat :=
  (length (change_stats_funcs e) + n_attr e + n_dyadic e)%nat.

(** ** basicSampler (basicSampler.c) *)

(** The inner loop [do { j = pick(int_urand(n)); } while (i == j)], where
    [pick] is the identity or the lookup in [inner_nodes].  Every turn takes
    a draw, the fuel is an upper bound on the number of turns. *)
Fixpoint draw_other (pick : nat → nat) (n i : nat) (fuel : nat) (r : rng)
    : outcome (nat * rng) :=
  match fuel with
  | O => NoDraw
  | S fuel' =>
      '(x, r') ← int_urand n r;
      let j := pick x in
      if decide (i = j) then draw_other pick n i fuel' r' else Ok (j, r')
  end.

(** [labs((long)g->zone[i] - (long)g->zone[j])] *)
Definition zone_distance (g : digraph) (i j : nat) : Z :=
  Z.abs (Z.of_nat (zone_of g i) - Z.of_nat (zone_of g j)).

(** The arc between [i] and [j], direction ignored, is the last tie of one
    of them to its preceding wave. *)
Definition last_tie_to_prev_wave (g : digraph) (i j : nat) : bool :=
  isArcIgnoreDirection g i j &&
  ((bool_decide (zone_of g j < zone_of g i)%nat &&
    bool_decide (prev_wave_degree_of g i = 1%nat)) ||
   (bool_decide (zone_of g i < zone_of g j)%nat &&
    bool_decide (prev_wave_degree_of g j = 1%nat))).

(** Dyad selection for conditional estimation: the outer [do ... while] of
    the first branch, with its two assertions.  Every turn takes draws, the
    fuel is an upper bound on the number of turns. *)
Fixpoint select_conditional (g : digraph) (fuel : nat) (r : rng)
    : outcome (nat * nat * rng) :=
  match fuel with
  | O => NoDraw
  | S fuel' =>
      '(x, r1) ← int_urand (num_inner_nodes g) r;
      let i := nth x (inner_nodes g) 0%nat in
      '(j, r2) ← draw_other (λ y, nth y (inner_nodes g) 0%nat)
                   (num_inner_nodes g) i (S (length (ints r1))) r1;
      _ ← assert (bool_decide (zone_of g i < max_zone g)%nat &&
                  bool_decide (zone_of g j < max_zone g)%nat);
      _ ← assert (bool_decide (zone_distance g i j ≤ 1)%Z ||
                  negb (isArcIgnoreDirection g i j));
      if bool_decide (1 < zone_distance g i j)%Z || last_tie_to_prev_wave g i j
      then select_conditional g fuel' r2
      else Ok (i, j, r2)
  end.

(** Dyad selection of the plain sampler: the outer [do ... while] of the
    second branch, with the fuel as above.  It also sets [isDelete]. *)
Fixpoint select_unconditional (g : digraph) (forbidReciprocity : bool)
    (fuel : nat) (r : rng) : outcome (nat * nat * bool * rng) :=
  match fuel with
  | O => NoDraw
  | S fuel' =>
      '(i, r1) ← int_urand (num_nodes g) r;
      '(j, r2) ← draw_other id (num_nodes g) i (S (length (ints r1))) r1;
      let isDelete := isArc g i j in
      if forbidReciprocity && negb isDelete && isArc g j i
      then select_unconditional g forbidReciprocity fuel' r2
      else Ok (i, j, isDelete, r2)
  end.

(** The dyad and the value of [isDelete] a proposal works with.  [isDelete]
    is a local of [basicSampler], initialised to FALSE and assigned in the
    second branch only: under conditional estimation it is FALSE at every
    proposal of the call.  [assert(!forbidReciprocity)] guards the first
    branch. *)
Definition select_dyad (g : digraph)
    (useConditionalEstimation forbidReciprocity : bool) (r : rng)
    : outcome (nat * nat * bool * rng) :=
  if useConditionalEstimation then
    _ ← assert (negb forbidReciprocity);
    '(i, j, r') ← select_conditional g (S (length (ints r))) r;
    Ok (i, j, false, r')
  else
    select_unconditional g forbidReciprocity (S (length (ints r))) r.

(** The three loops that fill [changestats]: structural, nodal attribute and
    dyadic covariate effects, in this order. *)
Definition changestats_of (e : effects) (g : digraph) (i j : nat) : list double :=
  map (λ f : change_stats_func, f g i j) (change_stats_funcs e) ++
  zip_with (λ (f : attr_change_stats_func) a, f g i j a)
    (attr_change_stats_funcs e) (attr_indices e) ++
  map (λ f : dyadic_change_stats_func, f g i j) (dyadic_change_stats_funcs e).

(** [(isDelete ? -1 : 1)] *)
Definition toggle_sign (isDelete : bool) : double :=
  if isDelete then Fin (- 1) else Fin 1.

(** [total], accumulated over the parameters in order:
    [total += theta[k] * (isDelete ? -1 : 1) * changestats[k]].  The arrays
    [theta], [addChangeStats] and [delChangeStats] of the caller are lists
    of the length [n] of [changestats]. *)
Definition total_of (theta : list double) (isDelete : bool)
    (changestats : list double) : double :=
  fold_left (λ total '(th, c), total + th * toggle_sign isDelete * c)%D
    (zip theta changestats) dzero.

(** [for (l = 0; l < n; l++) acc[l] += changestats[l]] *)
Definition accumulate (acc changestats : list double) : list double :=
  zip_with dadd acc changestats.

(** The state the sweep carries from one proposal to the next. *)
Record sweep : Type := mk_sweep {
  sw_graph : digraph;
  sw_rng : rng;
  sw_add : list double;
  sw_del : list double;
  sw_accepted : nat
}.

(** What one proposal did: the dyad, [isDelete], the change statistics, the
    sum [total], the uniform draw and whether the move was accepted. *)
Record proposal : Type := mk_proposal {
  pr_i : nat;
  pr_j : nat;
  pr_isDelete : bool;
  pr_changestats : list double;
  pr_total : double;
  pr_u : double;
  pr_accepted : bool
}.

(** The result of a call: the graph as the call leaves it, the acceptance
    rate returned, the two output vectors and the generator. *)
Record sampled : Type := mk_sampled {
  sa_graph : digraph;
  sa_rate : double;
  sa_add : list double;
  sa_del : list double;
  sa_rng : rng
}.

Section Sampler.

(** [exp] of the C library. *)
Variable dexp : double → double.

(** One turn of the loop over [k]. *)
Definition sampler_step (e : effects) (theta : list double)
    (performMove useConditionalEstimation forbidReciprocity : bool)
    (s : sweep) : outcome (sweep * proposal) :=
  '(i, j, isDelete, r1) ←
    select_dyad (sw_graph s) useConditionalEstimation forbidReciprocity
      (sw_rng s);
  let g1 := if isDelete : bool then removeArc (sw_graph s) i j
            else sw_graph s in
  let changestats := changestats_of e g1 i j in
  let total := total_of theta isDelete changestats in
  '(u, r2) ← urand r1;
  if (u <? dexp total)%D then
    let g2 :=
      if performMove then
        if negb isDelete then insertArc g1 i j else g1
      else
        if isDelete then insertArc g1 i j else g1 in
    Ok (mk_sweep g2 r2
          (if isDelete then sw_add s else accumulate (sw_add s) changestats)
          (if isDelete then accumulate (sw_del s) changestats else sw_del s)
          (S (sw_accepted s)),
        mk_proposal i j isDelete changestats total u true)
  else
    let g2 := if isDelete then insertArc g1 i j else g1 in
    Ok (mk_sweep g2 r2 (sw_add s) (sw_del s) (sw_accepted s),
        mk_proposal i j isDelete changestats total u false).

(** The loop [for (k = 0; k < sampler_m; k++)]. *)
Fixpoint sampler_loop (e : effects) (theta : list double)
    (performMove useConditionalEstimation forbidReciprocity : bool)
    (sampler_m : nat) (s : sweep) : outcome sweep :=
  match sampler_m with
  | O => Ok s
  | S m' =>
      sp ← sampler_step e theta performMove useConditionalEstimation
             forbidReciprocity s;
      sampler_loop e theta performMove useConditionalEstimation
        forbidReciprocity m' (fst sp)
  end.

Definition basicSampler (g : digraph) (e : effects) (theta : list double)
    (sampler_m : nat)
    (performMove useConditionalEstimation forbidReciprocity : bool)
    (r : rng) : outcome sampled :=
  let zeros := replicate (n_params e) dzero in
  s ← sampler_loop e theta performMove useConditionalEstimation
        forbidReciprocity sampler_m (mk_sweep g r zeros zeros 0);
  Ok (mk_sampled (sw_graph s)
        (of_nat (sw_accepted s) / of_nat sampler_m)%D
        (sw_add s) (sw_del s) (sw_rng s)).

End Sampler.

(** ** A model of [exp]

    The sampler is embedded for any function in the place of the C library's
    [exp].  Where a run is evaluated, [exp_model] stands for it: exact at the
    special values and at zero, as IEEE 754 prescribes, and at the other
    finite arguments the Taylor polynomial of degree 12 at [x / 4], squared
    twice. *)

Fixpoint exp_terms (n : nat) (x : Qc) (k : nat) (term : Qc) : Qc :=
  match n with
  | O => 0
  | S n' => term + exp_terms n' x (S k) (term * x / Qc_of_Z (Z.of_nat k))
  end.

Fixpoint square_n (s : nat) (y : Qc) : Qc :=
  match s with
  | O => y
  | S s' => square_n s' (y * y)
  end.

Definition exp_rational (q : Qc) : Qc :=
  square_n 2 (exp_terms 13 (q / Qc_of_Z 4) 1 1).

Definition exp_model (x : double) : double :=
  match x with
  | Fin q => Fin (exp_rational q)
  | PInf => PInf
  | NInf => Fin 0
  | NaN => NaN
  end.

(** ** Effects used in the examples *)

(** Modelled from the spec: the Arc statistic counts the arcs, so its change
    statistic is 1 for every dyad (glossary, "change statistic"). *)
Definition changeArc : change_stats_func := λ _ _ _, Fin 1.

(** An effect with a negative change statistic: the number of isolated
    nodes.  Adding the arc [i -> j] removes each endpoint that has no arc
    from the isolated nodes. *)
Definition is_isolated (g : digraph) (v : nat) : bool :=
  bool_decide (set_Forall (λ a : nat * nat, a.1 ≠ v ∧ a.2 ≠ v) (arcs g)).

Definition changeIsolates : change_stats_func := λ g i j,
  ((if is_isolated g i then Fin (- 1) else Fin 0) +
   (if is_isolated g j then Fin (- 1) else Fin 0))%D.

Definition only_structural (fs : list change_stats_func) : effects :=
  mk_effects fs [] [] [].

(** A graph without snowball zones. *)
Definition plain_digraph (n : nat) (a : list (nat * nat)) : digraph :=
  mk_digraph n (list_to_set a) a [] 0 [] [].

(** ** Algorithm S and Algorithm EE (equilibriumExpectation.c) *)

(** A line of an output file: the index in its first column, then the
    values. *)
Record row : Type := mk_row {
  row_t : Z;
  row_values : list double
}.

(** What a call of the IFD sampler returns: as for the basic sampler, and
    the two values it writes through its last two pointers. *)
Record ifd_sampled : Type := mk_ifd_sampled {
  if_graph : digraph;
  if_rate : double;
  if_add : list double;
  if_del : list double;
  if_dzArc : double;
  if_aux_param : double;
  if_rng : rng
}.

(** Per-effect arithmetic of Algorithm S. *)
Definition S_dzA (add del : double) : double := (del - add)%D.

Definition S_da (ACA add del : double) : double :=
  let sum := (add + del)%D in
  if (sum <? dzero)%D || (dzero <? sum)%D then (ACA / (sum * sum))%D
  else dzero.

Definition S_theta_step (ACA add del : double) : double :=
  let dzA := S_dzA add del in
  ((if (dzA <? dzero)%D then Fin (- 1) else Fin 1) * S_da ACA add del
   * dzA * dzA)%D.

Definition S_D0_next (D0 add del : double) : double :=
  (D0 + S_dzA add del * S_dzA add del)%D.

(** Per-effect arithmetic of Algorithm EE. *)
Definition EE_dzA_next (dzA add del : double) : double :=
  (dzA + (add - del))%D.

Definition EE_theta_step (ACA D0 dzA : double) : double :=
  ((if (dzA <? dzero)%D then Fin 1 else Fin (- 1)) * (D0 * ACA)
   * dzA * dzA)%D.

(** The constants [0.1] and [1e-10] of the variance control. *)
Definition min_theta_mean : double := Fin (Q2Qc (1 # 10)).
Definition min_theta_sd : double := Fin (Q2Qc (1 # 10000000000)).

(** Result of Algorithm S: the graph, the two output arrays [theta] and
    [Dmean], the lines written to the theta file and the generator; and the
    last value of the local array [D0], which [Dmean] is computed from. *)
Record S_result : Type := mk_S_result {
  S_graph : digraph;
  S_theta : list double;
  S_D0 : list double;
  S_Dmean : list double;
  S_rows : list row;
  S_rng : rng
}.

(** The variables of Algorithm S that live across iterations. *)
Record S_state : Type := mk_S_state {
  ss_graph : digraph;
  ss_theta : list double;
  ss_D0 : list double;
  ss_ifd_aux_param : double;
  ss_rows : list row;
  ss_rng : rng
}.

(** Result of Algorithm EE: the graph, [theta], the lines written to the two
    files and the generator; and the last values of [D0] and of the local
    array [dzA]. *)
Record EE_result : Type := mk_EE_result {
  EE_graph : digraph;
  EE_theta : list double;
  EE_D0 : list double;
  EE_dzA : list double;
  EE_theta_rows : list row;
  EE_dzA_rows : list row;
  EE_rng : rng
}.

(** The variables of Algorithm EE that live across iterations; [es_t] is the
    unsigned counter [t]. *)
Record EE_state : Type := mk_EE_state {
  es_graph : digraph;
  es_theta : list double;
  es_D0 : list double;
  es_dzA : list double;
  es_ifd_aux_param : double;
  es_t : Z;
  es_theta_rows : list row;
  es_dzA_rows : list row;
  es_rng : rng
}.

(** What either sampler hands back to the algorithms: the graph, the
    acceptance rate, the two vectors, the Arc column and the [dzArc] column
    of the output lines (present when the IFD sampler runs), the auxiliary
    parameter and the generator. *)
Record drawn : Type := mk_drawn {
  dr_graph : digraph;
  dr_rate : double;
  dr_add : list double;
  dr_del : list double;
  dr_arc_column : list double;
  dr_dzArc_column : list double;
  dr_ifd_aux_param : double;
  dr_rng : rng
}.

Section Estimator.

(** [exp] of the C library. *)
Variable dexp : double → double.

(** [ifdSampler] of ifdSampler.c: the graph, the effects, [theta],
    [sampler_m], [performMove], [ifd_K], the auxiliary parameter on entry
    and the generator. *)
Variable ifdSampler :
  digraph → effects → list double → nat → bool → double → double → rng →
  outcome ifd_sampled.

(** [arcCorrection] of digraph.c, [mean_and_sd] of utils.c and [sqrt] of
    the C library. *)
Variable arcCorrection : digraph → double.
Variable mean_and_sd : list double → double * double.
Variable dsqrt : double → double.

(** The two flags of the configuration that [basicSampler] takes after
    [performMove].  The calls in equilibriumExpectation.c end with
    [performMove]; equilibriumExpectation.h declares the algorithms with
    [useConditionalEstimation], which they pass on. *)
Variable useConditionalEstimation forbidReciprocity : bool.

(** The call of the sampler in either algorithm. *)
Definition run_sampler (useIFDsampler : bool) (g : digraph) (e : effects)
    (theta : list double) (sampler_m : nat) (performMove : bool)
    (ifd_K arc_correction_val ifd_aux_param : double) (r : rng)
    : outcome drawn :=
  if useIFDsampler then
    s ← ifdSampler g e theta sampler_m performMove ifd_K ifd_aux_param r;
    Ok (mk_drawn (if_graph s) (if_rate s) (if_add s) (if_del s)
          [(if_aux_param s - arc_correction_val)%D] [if_dzArc s]
          (if_aux_param s) (if_rng s))
  else
    s ← basicSampler dexp g e theta sampler_m performMove
          useConditionalEstimation forbidReciprocity r;
    Ok (mk_drawn (sa_graph s) (sa_rate s) (sa_add s) (sa_del s) [] []
          ifd_aux_param (sa_rng s)).

(** One iteration [t] of Algorithm S. *)
Definition S_step (e : effects) (M1 sampler_m : nat) (ACA : double)
    (useIFDsampler : bool) (ifd_K arc_correction_val : double)
    (t : nat) (s : S_state) : outcome S_state :=
  o ← run_sampler useIFDsampler (ss_graph s) e (ss_theta s) sampler_m false
        ifd_K arc_correction_val (ss_ifd_aux_param s) (ss_rng s);
  let changes := zip (dr_add o) (dr_del o) in
  let D0 := zip_with (λ d0 ad, S_D0_next d0 ad.1 ad.2) (ss_D0 s) changes in
  let theta :=
    zip_with (λ th ad, th + S_theta_step ACA ad.1 ad.2)%D (ss_theta s)
      changes in
  let line :=
    mk_row (as_signed (wrap (Z.of_nat t - Z.of_nat M1)))
      (dr_arc_column o ++ theta ++ [dr_rate o]) in
  Ok (mk_S_state (dr_graph o) theta D0 (dr_ifd_aux_param o)
        (ss_rows s ++ [line]) (dr_rng o)).

(** [for (t = 0; t < M1; t++)], [count] iterations from [t] on. *)
Fixpoint S_loop (e : effects) (M1 sampler_m : nat) (ACA : double)
    (useIFDsampler : bool) (ifd_K arc_correction_val : double)
    (count t : nat) (s : S_state) : outcome S_state :=
  match count with
  | O => Ok s
  | S count' =>
      s' ← S_step e M1 sampler_m ACA useIFDsampler ifd_K
             arc_correction_val t s;
      S_loop e M1 sampler_m ACA useIFDsampler ifd_K arc_correction_val
        count' (S t) s'
  end.

(** The variables on entry of the loop: [theta] set to 0, [D0] from
    [calloc], [ifd_aux_param] 0. *)
Definition S_init (g : digraph) (e : effects) (r : rng) : S_state :=
  mk_S_state g (replicate (n_params e) dzero) (replicate (n_params e) dzero)
    dzero [] r.

Definition algorithm_S (g : digraph) (e : effects) (M1 sampler_m : nat)
    (ACA : double) (useIFDsampler : bool) (ifd_K : double) (r : rng)
    : outcome S_result :=
  s ← S_loop e M1 sampler_m ACA useIFDsampler ifd_K (arcCorrection g)
        M1 0 (S_init g e r);
  Ok (mk_S_result (ss_graph s) (ss_theta s) (ss_D0 s)
        (map (λ d0, of_nat sampler_m / d0)%D (ss_D0 s))
        (ss_rows s) (ss_rng s)).

(** One inner iteration of Algorithm EE; [tinner] is the inner counter. *)
Definition EE_step (e : effects) (sampler_m : nat) (ACA : double)
    (outputAllSteps useIFDsampler : bool)
    (ifd_K arc_correction_val : double) (tinner : nat) (s : EE_state)
    : outcome EE_state :=
  o ← run_sampler useIFDsampler (es_graph s) e (es_theta s) sampler_m true
        ifd_K arc_correction_val (es_ifd_aux_param s) (es_rng s);
  let dzA :=
    zip_with (λ z ad, EE_dzA_next z ad.1 ad.2) (es_dzA s)
      (zip (dr_add o) (dr_del o)) in
  let theta :=
    zip_with (λ th dz, th + EE_theta_step ACA dz.1 dz.2)%D (es_theta s)
      (zip (es_D0 s) dzA) in
  let emit := outputAllSteps || bool_decide (tinner = 0%nat) in
  Ok (mk_EE_state (dr_graph o) theta (es_D0 s) dzA (dr_ifd_aux_param o)
        (wrap (es_t s + 1))
        (if emit
         then es_theta_rows s ++
              [mk_row (es_t s) (dr_arc_column o ++ theta ++ [dr_rate o])]
         else es_theta_rows s)
        (if emit
         then es_dzA_rows s ++ [mk_row (es_t s) (dr_dzArc_column o ++ dzA)]
         else es_dzA_rows s)
        (dr_rng o)).

(** The inner loop, which also fills [thetamatrix]: one [theta] vector per
    inner iteration. *)
Fixpoint EE_inner (e : effects) (sampler_m : nat) (ACA : double)
    (outputAllSteps useIFDsampler : bool)
    (ifd_K arc_correction_val : double) (count tinner : nat)
    (thetamatrix : list (list double)) (s : EE_state)
    : outcome (EE_state * list (list double)) :=
  match count with
  | O => Ok (s, thetamatrix)
  | S count' =>
      s' ← EE_step e sampler_m ACA outputAllSteps useIFDsampler ifd_K
             arc_correction_val tinner s;
      EE_inner e sampler_m ACA outputAllSteps useIFDsampler ifd_K
        arc_correction_val count' (S tinner)
        (thetamatrix ++ [es_theta s']) s'
  end.

(** The adjustment of [D0[l]] after the inner loop, from the values
    [theta[l]] took in it. *)
Definition adjust_D0 (compC : double) (thetas : list double) (d0 : double)
    : outcome double :=
  let '(mean0, theta_sd) := mean_and_sd thetas in
  let theta_mean :=
    if (dabs mean0 <? min_theta_mean)%D then min_theta_mean else mean0 in
  _ ← assert (dzero <=? theta_sd)%D;
  if (min_theta_sd <? theta_sd)%D
  then Ok (d0 * dsqrt (compC / (theta_sd / dabs theta_mean)))%D
  else Ok d0.

Definition adjust_all (compC : double) (thetamatrix : list (list double))
    (D0 : list double) : outcome (list double) :=
  mapM (λ ld : nat * double,
          adjust_D0 compC (map (λ th, nth ld.1 th dzero) thetamatrix) ld.2)
    (imap (λ l d0, (l, d0)) D0).

(** The loop over [l] after the inner loop: only [D0] changes. *)
Definition EE_adjust (compC : double) (thetamatrix : list (list double))
    (s : EE_state) : outcome EE_state :=
  D0 ← adjust_all compC thetamatrix (es_D0 s);
  Ok (mk_EE_state (es_graph s) (es_theta s) D0 (es_dzA s)
        (es_ifd_aux_param s) (es_t s) (es_theta_rows s) (es_dzA_rows s)
        (es_rng s)).

(** The outer loop. *)
Fixpoint EE_outer (e : effects) (Minner sampler_m : nat)
    (ACA compC : double) (outputAllSteps useIFDsampler : bool)
    (ifd_K arc_correction_val : double) (count : nat) (s : EE_state)
    : outcome EE_state :=
  match count with
  | O => Ok s
  | S count' =>
      '(s1, thetamatrix) ←
        EE_inner e sampler_m ACA outputAllSteps useIFDsampler ifd_K
          arc_correction_val Minner 0 [] s;
      s2 ← EE_adjust compC thetamatrix s1;
      EE_outer e Minner sampler_m ACA compC outputAllSteps useIFDsampler
        ifd_K arc_correction_val count' s2
  end.

(** The variables on entry of the loops: [dzA] from [calloc], [t] and
    [ifd_aux_param] 0. *)
Definition EE_init (g : digraph) (e : effects) (D0 theta : list double)
    (r : rng) : EE_state :=
  mk_EE_state g theta D0 (replicate (n_params e) dzero) dzero 0 [] [] r.

Definition algorithm_EE (g : digraph) (e : effects)
    (Mouter Minner sampler_m : nat) (ACA compC : double)
    (D0 theta : list double) (outputAllSteps useIFDsampler : bool)
    (ifd_K : double) (r : rng) : outcome EE_result :=
  s ← EE_outer e Minner sampler_m ACA compC outputAllSteps useIFDsampler
        ifd_K (arcCorrection g) Mouter (EE_init g e D0 theta r);
  Ok (mk_EE_result (es_graph s) (es_theta s) (es_D0 s) (es_dzA s)
        (es_theta_rows s) (es_dzA_rows s) (es_rng s)).

(** [M1 = (uint_t)(M1_steps * g->num_nodes / sampler_m)], in unsigned
    arithmetic. *)
Definition compute_M1 (M1_steps num_nodes sampler_m : nat) : outcome nat :=
  if decide (sampler_m = 0%nat) then DivideByZero
  else Ok (Z.to_nat (wrap (Z.of_nat M1_steps * Z.of_nat num_nodes)
                     / Z.of_nat sampler_m)).

(** Result of [ee_estimate]: the graph and [theta] it leaves, and the
    lines it wrote to the two output files. *)
Record estimate : Type := mk_estimate {
  est_graph : digraph;
  est_theta : list double;
  est_Dmean : list double;
  est_theta_rows : list row;
  est_dzA_rows : list row;
  est_rng : rng
}.

Definition ee_estimate (g : digraph) (e : effects)
    (sampler_m M1_steps Mouter Msteps : nat) (ACA_S ACA_EE compC : double)
    (outputAllSteps useIFDsampler : bool) (ifd_K : double) (r : rng)
    : outcome estimate :=
  M1 ← compute_M1 M1_steps (num_nodes g) sampler_m;
  let M := Msteps in
  rs ← algorithm_S g e M1 sampler_m ACA_S useIFDsampler ifd_K r;
  re ← algorithm_EE (S_graph rs) e Mouter M sampler_m ACA_EE compC
         (S_Dmean rs) (S_theta rs) outputAllSteps useIFDsampler ifd_K
         (S_rng rs);
  Ok (mk_estimate (EE_graph re) (EE_theta re) (S_Dmean rs)
        (S_rows rs ++ EE_theta_rows re) (EE_dzA_rows re) (EE_rng re)).

End Estimator.

(** ** do_estimation (equilibriumExpectation.c) *)

(** [ARC_PARAM_STR] of configparser.h. *)
Definition ARC_PARAM_STR : string := "Arc"%string.

Definition tolower (c : ascii) : ascii :=
  let n := nat_of_ascii c in
  if (65 <=? n)%nat && (n <=? 90)%nat then ascii_of_nat (n + 32) else c.

Fixpoint lowercase (s : string) : string :=
  match s with
  | EmptyString => EmptyString
  | String c s' => String (tolower c) (lowercase s')
  end.

(** [strcasecmp(a, b) == 0] *)
Definition strcasecmp_eq (a b : string) : bool :=
  String.eqb (lowercase a) (lowercase b).

(** The fields of [config_t] (configparser.h) that [do_estimation] reads. *)
Record config : Type := mk_config {
  ACA_S : double;
  ACA_EE : double;
  compC : double;
  samplerSteps : nat;
  Ssteps : nat;
  EEsteps : nat;
  EEinnerSteps : nat;
  outputAllSteps : bool;
  useIFDsampler : bool;
  ifd_K : double;
  outputSimulatedNetwork : bool;
  arclist_filename : string;
  theta_file_prefix : string;
  dzA_file_prefix : string;
  sim_net_file_prefix : string;
  zone_filename : option string;
  cfg_useConditionalEstimation : bool;
  cfg_forbidReciprocity : bool;
  cfg_change_stats_funcs : list change_stats_func;
  param_names : list string;
  cfg_attr_change_stats_funcs : list attr_change_stats_func;
  attr_names : list string;
  attr_param_names : list string;
  cfg_dyadic_change_stats_funcs : list dyadic_change_stats_func;
  dyadic_param_names : list string
}.

(** What [do_estimation] finds outside the program: which files can be
    opened, and what the loading functions of digraph.c and configparser.c
    return ([None] is their error return). *)
Record world : Type := mk_world {
  readable : string → bool;
  writable : string → bool;
  load_digraph_from_arclist_file : digraph;
  add_snowball_zones_to_digraph : digraph → string → option digraph;
  build_attr_indices_from_names : digraph → option (list nat);
  build_dyadic_indices_from_names :
    digraph → option (list dyadic_change_stats_func * list string)
}.

(** The errors [do_estimation] reports on [stderr]. *)
Inductive error_message : Type :=
| ErrOpenArclist (name : string)
| ErrZones (name : string)
| ErrAttrParams
| ErrDyadicParams
| ErrOpenOutput (name : string)
| ErrArcWithIFD.

(** What [do_estimation] does to the outside, in order. *)
Inductive event : Type :=
| Fopen (name mode : string) (ok : bool)
| Eprint (msg : error_message)
| Fheader (name : string) (columns : list string)
| Frows (name : string) (rows : list row)
| Fclose (name : string)
| Fnetwork (name : string) (g : digraph).

(** [sprintf(suffix, "_%d.txt", tasknum)] appended to a prefix. *)
Definition task_filename (prefix : string) (tasknum : nat) (ext : string)
    : string :=
  String.append prefix
    (String.append "_"%string
       (String.append (NilZero.string_of_uint (Nat.to_uint tasknum)) ext)).

(** The check that no structural parameter is Arc. *)
Definition lists_Arc (c : config) : bool :=
  existsb (λ name, strcasecmp_eq name ARC_PARAM_STR) (param_names c).

(** The header line, as its columns. *)
Definition fileheader (c : config) (dyadic_names : list string) : list string :=
  ["t"%string] ++ (if useIFDsampler c then [ARC_PARAM_STR] else []) ++
  param_names c ++
  zip_with (λ p a, String.append p (String.append "_"%string a))
    (attr_param_names c) (attr_names c) ++
  dyadic_names.

Section Driver.

Variable dexp : double → double.
Variable ifdSampler :
  digraph → effects → list double → nat → bool → double → double → rng →
  outcome ifd_sampled.
Variable arcCorrection : digraph → double.
Variable mean_and_sd : list double → double * double.
Variable dsqrt : double → double.

(** The return value and the events, in order.  The run of [ee_estimate] may
    abort the process: the outcome. *)
Definition do_estimation (c : config) (tasknum : nat) (w : world) (r : rng)
    : outcome (Z * list event) :=
  if negb (readable w (arclist_filename c)) then
    Ok ((-1)%Z, [Fopen (arclist_filename c) "r"%string false;
                 Eprint (ErrOpenArclist (arclist_filename c))])
  else
  let ev0 := [Fopen (arclist_filename c) "r"%string true] in
  let g0 := load_digraph_from_arclist_file w in
  let zoned :=
    match zone_filename c with
    | Some f => add_snowball_zones_to_digraph w g0 f
    | None => Some g0
    end in
  match zoned with
  | None =>
      Ok ((-1)%Z, ev0 ++ [Eprint (ErrZones (default ""%string (zone_filename c)))])
  | Some g =>
  match build_attr_indices_from_names w g with
  | None => Ok ((-1)%Z, ev0 ++ [Eprint ErrAttrParams])
  | Some attr_idx =>
  match build_dyadic_indices_from_names w g with
  | None => Ok ((-1)%Z, ev0 ++ [Eprint ErrDyadicParams])
  | Some (dyadic_funcs, dyadic_names) =>
  let e := mk_effects (cfg_change_stats_funcs c)
             (cfg_attr_change_stats_funcs c) attr_idx dyadic_funcs in
  let theta_outfilename := task_filename (theta_file_prefix c) tasknum ".txt"%string in
  let dzA_outfilename := task_filename (dzA_file_prefix c) tasknum ".txt"%string in
  if negb (writable w theta_outfilename) then
    Ok ((-1)%Z, ev0 ++ [Fopen theta_outfilename "w"%string false;
                        Eprint (ErrOpenOutput theta_outfilename)])
  else
  let ev1 := ev0 ++ [Fopen theta_outfilename "w"%string true] in
  if useIFDsampler c && lists_Arc c then
    Ok ((-1)%Z, ev1 ++ [Eprint ErrArcWithIFD])
  else
  if negb (writable w dzA_outfilename) then
    Ok ((-1)%Z, ev1 ++ [Fopen dzA_outfilename "w"%string false;
                        Eprint (ErrOpenOutput dzA_outfilename)])
  else
  let header := fileheader c dyadic_names in
  let ev2 := ev1 ++ [Fopen dzA_outfilename "w"%string true;
                     Fheader theta_outfilename (header ++ ["AcceptanceRate"%string]);
                     Fheader dzA_outfilename header] in
  est ← ee_estimate dexp ifdSampler arcCorrection mean_and_sd dsqrt
          (cfg_useConditionalEstimation c) (cfg_forbidReciprocity c)
          g e (samplerSteps c) (Ssteps c) (EEsteps c) (EEinnerSteps c)
          (ACA_S c) (ACA_EE c) (compC c) (outputAllSteps c)
          (useIFDsampler c) (ifd_K c) r;
  let ev3 := ev2 ++ [Frows theta_outfilename (est_theta_rows est);
                     Frows dzA_outfilename (est_dzA_rows est);
                     Fclose theta_outfilename; Fclose dzA_outfilename] in
  let sim_outfilename := task_filename (sim_net_file_prefix c) tasknum ".net"%string in
  Ok (0%Z,
      if outputSimulatedNetwork c
      then ev3 ++ [Fopen sim_outfilename "w"%string (writable w sim_outfilename);
                   Fnetwork sim_outfilename (est_graph est);
                   Fclose sim_outfilename]
      else ev3)
  end end end.

End Driver.

(** ** The formulas of the specification *)

(** [sign(x)]: 1, -1 or 0 with the sign of [x]; NaN has no sign. *)
Definition sign (x : double) : double :=
  if (x <? dzero)%D then Fin (- 1)
  else if (dzero <? x)%D then Fin 1
  else if is_nan x then NaN
  else Fin 0.

(** The step of Algorithm EE as the specification writes it:
    [-sign(dzA) * (D0 * ACA_EE) * dzA^2]. *)
Definition EE_step_spec (ACA D0 dzA : double) : double :=
  (- sign dzA * (D0 * ACA) * (dzA * dzA))%D.

(** [aca_k] of Algorithm S as the specification writes it:
    [ACA_S / (add + del)^2] when the sum is not zero, and 0 otherwise. *)
Definition S_aca_spec (ACA add del : double) : double :=
  let sum := (add + del)%D in
  if decide (sum = dzero) then dzero else (ACA / (sum * sum))%D.

(** The step of Algorithm S as the specification writes it:
    [sign(dzA_t) * aca_k * dzA_t^2] with [dzA_t = del - add]. *)
Definition S_step_spec (ACA add del : double) : double :=
  let dzA_t := (del - add)%D in
  (sign dzA_t * S_aca_spec ACA add del * (dzA_t * dzA_t))%D.

(** [total] as the specification writes it: the sum over [k] of
    [theta[k] * s * delta[k]]. *)
Definition total_spec (theta : list double) (s : double)
    (delta : list double) : double :=
  foldr dadd dzero (zip_with (λ th c, th * s * c)%D theta delta).

(** [0 <= x], which excludes NaN. *)
Definition nonneg (x : double) : Prop := (dzero <=? x)%D = true.

(** Every change statistic of [e] is non-negative on every graph and dyad. *)
Definition nonneg_effects (e : effects) : Prop :=
  (∀ f g i j, f ∈ change_stats_funcs e → nonneg (f g i j)) ∧
  (∀ f g i j a, f ∈ attr_change_stats_funcs e → nonneg (f g i j a)) ∧
  (∀ f g i j, f ∈ dyadic_change_stats_funcs e → nonneg (f g i j)).

(** A node of the outermost wave. *)
Definition outermost (g : digraph) (v : nat) : Prop :=
  (max_zone g ≤ zone_of g v)%nat.

(** The values of [t] on the lines that the inner loop writes when it starts
    at [t0] and runs [Minner] times: all of them with [outputAllSteps], the
    first one only without. *)
Definition inner_row_indices (outputAllSteps : bool) (t0 : Z) (Minner : nat)
    : list Z :=
  if outputAllSteps then map (λ i, t0 + Z.of_nat i)%Z (seq 0 Minner)
  else if decide (Minner = 0%nat) then [] else [t0].

(** The values of [t] on the lines of Algorithm EE. *)
Definition EE_row_indices (outputAllSteps : bool) (Mouter Minner : nat)
    : list Z :=
  flat_map (λ o, inner_row_indices outputAllSteps (Z.of_nat (o * Minner)) Minner)
    (seq 0 Mouter).

(** The values [-M1, ..., -1]. *)
Definition S_row_indices (M1 : nat) : list Z :=
  map (λ t, Z.of_nat t - Z.of_nat M1)%Z (seq 0 M1).

(** The files a run opened for writing, in order. *)
Definition opened_for_writing (events : list event) : list string :=
  flat_map (λ ev,
    match ev with
    | Fopen name mode true => if String.eqb mode "w"%string then [name] else []
    | _ => []
    end) events.

(** The run wrote a header or lines to some file. *)
Definition wrote_output (events : list event) : bool :=
  existsb (λ ev,
    match ev with
    | Fheader _ _ | Frows _ _ | Fnetwork _ _ => true
    | _ => false
    end) events.

(** Everything [do_estimation] does before it opens the output files
    succeeds, and the theta file can be opened. *)
Definition loads_fine (c : config) (tasknum : nat) (w : world) : Prop :=
  readable w (arclist_filename c) = true ∧
  (∀ f, zone_filename c = Some f →
     is_Some (add_snowball_zones_to_digraph w
                (load_digraph_from_arclist_file w) f)) ∧
  (∀ g, is_Some (build_attr_indices_from_names w g)) ∧
  (∀ g, is_Some (build_dyadic_indices_from_names w g)) ∧
  writable w (task_filename (theta_file_prefix c) tasknum ".txt"%string) = true.

(** ** Predicates on graphs, runs and files *)

(** No two distinct nodes have arcs in both directions. *)
Definition no_reciprocated (g : digraph) : Prop :=
  ∀ i j, i ≠ j → isArc g i j = true → isArc g j i = false.

(** Every arc joins two distinct nodes of the graph. *)
Definition arcs_in_range (g : digraph) : Prop :=
  ∀ i j, isArc g i j = true →
    i ≠ j ∧ (i < num_nodes g)%nat ∧ (j < num_nodes g)%nat.

(** The ways a run ends without a result. *)
Inductive failure : Type := FAssert | FNoDraw | FDivide.

Definition fails_with {A : Type} (f : failure) (o : outcome A) : bool :=
  match f, o with
  | FAssert, AssertFailed | FNoDraw, NoDraw | FDivide, DivideByZero => true
  | _, _ => false
  end.
Global Arguments fails_with {A} f o : simpl never.

(** A snowball sample as conditional estimation expects it: the inner nodes
    are in the zones below the largest, and no arc skips a zone. *)
Definition snowball_sample (g : digraph) : Prop :=
  (∀ v, v ∈ inner_nodes g → (zone_of g v < max_zone g)%nat) ∧
  (∀ i j, isArcIgnoreDirection g i j = true → (zone_distance g i j ≤ 1)%Z).

(** The effect at index [k] is the change statistic of the statistic [z] of
    the arc set: on a graph without the arc [i -> j] it returns what [z]
    gains when the arc is added. *)
Definition change_statistic_of (e : effects) (k : nat)
    (z : gset (nat * nat) → Qc) : Prop :=
  ∀ g i j, isArc g i j = false →
    changestats_of e g i j !! k
    = Some (Fin (z ({[ (i, j) ]} ∪ arcs g) - z (arcs g))).

(** Every change statistic of [e] is a finite number on every graph and
    dyad. *)
Definition finite_effects (e : effects) : Prop :=
  ∀ g i j, Forall (λ c, is_finite c = true) (changestats_of e g i j).

(** [max(|m|, 0.1)]: the magnitude of the mean of [theta[l]] after the
    floor that keeps it from zero. *)
Definition floored_magnitude (m : Qc) : Qc :=
  let a := if decide (m < 0) then - m else m in
  if decide (a < Q2Qc (1 # 10)) then Q2Qc (1 # 10) else a.

(** A line with [w] values after the index. *)
Definition has_width (w : nat) (line : row) : Prop :=
  length (row_values line) = w.

(** The error messages of a run, the files it closed. *)
Definition reported_errors (events : list event) : list error_message :=
  flat_map (λ ev, match ev with Eprint msg => [msg] | _ => [] end) events.

Definition closed_files (events : list event) : list string :=
  flat_map (λ ev, match ev with Fclose name => [name] | _ => [] end) events.

(** The arrays of names of the configuration are as long as the arrays of
    functions they name, and so are the arrays the loading functions
    build. *)
Definition names_match (c : config) (w : world) : Prop :=
  length (param_names c) = length (cfg_change_stats_funcs c) ∧
  length (attr_param_names c) = length (cfg_attr_change_stats_funcs c) ∧
  length (attr_names c) = length (cfg_attr_change_stats_funcs c) ∧
  (∀ g idx, build_attr_indices_from_names w g = Some idx →
     length idx = length (cfg_attr_change_stats_funcs c)) ∧
  (∀ g fs ns, build_dyadic_indices_from_names w g = Some (fs, ns) →
     length fs = length ns).

(** A line has a field for every column of the header. *)
Definition fits (header : list string) (line : row) : Prop :=
  S (length (row_values line)) = length header.

(** ** Stand-ins for the functions the estimator is given

    Algorithm S and Algorithm EE are embedded for any IFD sampler, arc
    correction, mean and standard deviation and square root.  Where a run is
    evaluated these stand for them. *)

(** The run does not use the IFD sampler. *)
Definition no_ifdSampler :
    digraph → effects → list double → nat → bool → double → double → rng →
    outcome ifd_sampled :=
  λ _ _ _ _ _ _ _ _, NoDraw.

(** The arc correction is read by the IFD branches only. *)
Definition no_arcCorrection : digraph → double := λ _, dzero.

(** The square root, cut after 15 decimals; exact on the squares of such
    numbers. *)
Definition sqrt_rational (q : Qc) : Qc :=
  Q2Qc (Z.sqrt (Qnum q * Zpos (Qden q) * 10 ^ 30)
        # (Qden q * 10 ^ 15)).

Definition sqrt_model (x : double) : double :=
  match x with
  | Fin q => if decide (q < 0) then NaN else Fin (sqrt_rational q)
  | PInf => PInf
  | NInf | NaN => NaN
  end.

(** Modelled from the spec: [mean_and_sd] of [utils.c] returns the mean of
    the values and hands back their standard deviation (section 4.6). *)
Definition mean_and_sd_model (values : list double) : double * double :=
  let n := of_nat (length values) in
  let mean := (fold_left dadd values dzero / n)%D in
  let var :=
    (fold_left (λ acc x, acc + (x - mean) * (x - mean))%D values dzero / n)%D in
  (mean, sqrt_model var).

(** ** Inputs of the examples *)

(** The value of a run that ends, if it does. *)
Definition ok {A : Type} (o : outcome A) : option A :=
  match o with
  | Ok a => Some a
  | _ => None
  end.

Definition half : Qc := Q2Qc (1 # 2).

(** Two nodes and no arc; two nodes and the arc [0 -> 1]. *)
Definition two_nodes : digraph := plain_digraph 2 [].
Definition one_arc : digraph := plain_digraph 2 [(0, 1)%nat].

Definition Arc_only : effects := only_structural [changeArc].
Definition Isolates_only : effects := only_structural [changeIsolates].

(** The tape of [k] proposals of the dyad [(0, 1)], each with the uniform
    draw [1/2]. *)
Definition tape_01 (k : nat) : rng :=
  mk_rng (concat (replicate k [0; 1]%nat)) (replicate k half).

(** The tape of a proposal of [(0, 1)] followed by one of [(1, 0)]. *)
Definition tape_01_10 : rng := mk_rng [0; 1; 1; 0]%nat [half; half].

(** A snowball sample: the nodes 0 and 1 in zone 0, node 2 in zone 1 and
    node 3 in zone 2, with the arcs [0 -> 2], [1 -> 2] and [2 -> 3]; the
    nodes 0, 1 and 2 are the inner ones. *)
Definition snowball : digraph :=
  mk_digraph 4 (list_to_set [(0, 2); (1, 2); (2, 3)]%nat)
    [(0, 2); (1, 2); (2, 3)]%nat [0; 0; 1; 2]%nat 2 [0; 1; 2]%nat
    [0; 0; 2; 1]%nat.

(** A state of Algorithm EE at the entry of an inner iteration, with one
    effect. *)
Definition EE_state_of (g : digraph) (theta D0 dzA : double) (r : rng)
    : EE_state :=
  mk_EE_state g [theta] [D0] [dzA] dzero 0 [] [] r.

(** A configuration with the structural parameters [names], one function
    each, and the IFD switch. *)
Definition config_of (names : list string) (ifd : bool) : config :=
  mk_config (Fin (Q2Qc (1 # 10))) (Fin (Q2Qc (1 # 1000000000)))
    (Fin (Q2Qc (1 # 100))) 1 1 2 2 false ifd (Fin (Q2Qc (1 # 10))) false
    "arclist.txt"%string "theta"%string "dzA"%string "sim"%string None
    false false (map (λ _, changeArc) names) names [] [] [] [] [].

(** A world in which every file opens and the loading functions succeed on
    the graph [g]. *)
Definition world_of (g : digraph) : world :=
  mk_world (λ _, true) (λ _, true) g (λ g' _, Some g') (λ _, Some [])
    (λ _, Some ([], [])).

(** The step multipliers and the variance target of the examples. *)
Definition ACA_EE_default : double := Fin (Q2Qc (1 # 1000000000)).
Definition ACA_S_example : double := Fin (Q2Qc (1 # 10)).
Definition compC_default : double := Fin (Q2Qc (1 # 100)).

(** The number of arcs, as a statistic of the arc set. *)
Definition arc_count (A : gset (nat * nat)) : Qc :=
  Qc_of_Z (Z.of_nat (size A)).

(** The tape of a proposal of [(1, 0)], which the selection with
    [forbidReciprocity] draws again on [one_arc], and then of [(0, 1)]. *)
Definition tape_10_01 : rng := mk_rng [1; 0; 0; 1]%nat [half].

(** The tape of a proposal of the nodes at the places 0 and 2 of
    [inner_nodes]. *)
Definition tape_02 : rng := mk_rng [0; 2]%nat [half].

(** * Properties *)

(** ** Arithmetic of doubles *)

Definition sign_mul (c d : comparison) : comparison :=
  match c, d with
  | Eq, _ | _, Eq => Eq
  | Gt, Gt | Lt, Lt => Gt
  | _, _ => Lt
  end.

Lemma Qnum_sign (a : Q) : (a ?= 0)%Q = (Qnum a ?= 0)%Z.
Proof. unfold Qcompare. simpl. now rewrite Z.mul_1_r. Qed.

Lemma Qc_sign_mul (a b : Qc) : (a * b ?= 0) = sign_mul (a ?= 0) (b ?= 0).
Proof.
  unfold Qccompare, Qcmult, Q2Qc. cbn [this].
  change (Qred 0) with 0%Q. change 0%Q with (Qred 0) at 1.
  rewrite <- Qred_compare, !Qnum_sign. cbn.
  destruct (Qnum a), (Qnum b); reflexivity.
Qed.

Lemma Qc_sign_opp (a : Qc) : (- a ?= 0) = CompOpp (a ?= 0).
Proof.
  unfold Qccompare, Qcopp, Q2Qc. cbn [this].
  change (Qred 0) with 0%Q. change 0%Q with (Qred 0) at 1.
  rewrite <- Qred_compare, !Qnum_sign. cbn.
  destruct (Qnum a); reflexivity.
Qed.

(** Case analysis on the signs of the rationals of a goal. *)
Ltac sign_cases :=
  repeat (cbn [dmul dadd dneg dsub inf_of_sign sign_mul CompOpp];
          rewrite ?Qc_sign_mul, ?Qc_sign_opp;
          repeat match goal with
                 | H : (?a ?= Q2Qc 0) = _ |- context [(?a ?= Q2Qc 0)] =>
                     rewrite H
                 end;
          try match goal with
              | |- context [(?a ?= Q2Qc 0)] => destruct (a ?= Q2Qc 0) eqn:?
              end).

Lemma dmul_assoc (x y z : double) : (x * (y * z) = x * y * z)%D.
Proof.
  destruct x as [a| | |], y as [b| | |], z as [c| | |]; sign_cases;
    try reflexivity; f_equal; ring.
Qed.

Lemma dadd_assoc (x y z : double) : (x + (y + z) = x + y + z)%D.
Proof.
  destruct x as [a| | |], y as [b| | |], z as [c| | |]; cbn;
    try reflexivity; f_equal; ring.
Qed.

Lemma dadd_comm (x y : double) : (x + y = y + x)%D.
Proof.
  destruct x as [a| | |], y as [b| | |]; cbn; try reflexivity; f_equal; ring.
Qed.

Lemma dadd_0_r (x : double) : (x + dzero = x)%D.
Proof. destruct x as [a| | |]; cbn; try reflexivity. f_equal; ring. Qed.

Lemma dadd_0_l (x : double) : (dzero + x = x)%D.
Proof. rewrite dadd_comm. apply dadd_0_r. Qed.

Lemma dmul_NaN_r (x : double) : (x * NaN = NaN)%D.
Proof. destruct x; reflexivity. Qed.

Lemma dltb_Fin (a b : Qc) : (Fin a <? Fin b)%D = bool_decide (a < b).
Proof. reflexivity. Qed.

(** The square factor makes the sign chosen at zero immaterial: the source's
    [(dzA < 0 ? -1 : 1)] and [sign] give the same product. *)
Lemma signed_square_code_spec (c z : double) :
  ((if (z <? dzero)%D then Fin (- 1) else Fin 1) * c * z * z
   = sign z * c * (z * z))%D.
Proof.
  rewrite <- (dmul_assoc _ z z). unfold sign, dzero.
  destruct z as [q| | |]; try reflexivity.
  - rewrite !dltb_Fin.
    destruct (bool_decide (q < 0)) eqn:Hlt; [reflexivity|].
    destruct (bool_decide (0 < q)) eqn:Hgt; [reflexivity|].
    apply bool_decide_eq_false in Hlt, Hgt.
    assert (q = 0) as -> by (apply Qcle_antisym; by apply Qcnot_lt_le).
    cbn [is_nan].
    destruct c as [a| | |]; cbn; try reflexivity. f_equal; ring.
  - cbn [dltb is_nan]. by rewrite !dmul_NaN_r.
Qed.

Lemma dneg_mul_l (x y : double) : (- x * y = - (x * y))%D.
Proof.
  destruct x as [a| | |], y as [b| | |]; sign_cases; cbn; try reflexivity;
    f_equal; ring.
Qed.

Lemma dneg_Fin_1 : (- Fin 1)%D = Fin (- 1).
Proof. reflexivity. Qed.

Lemma dneg_Fin_m1 : (- Fin (- 1))%D = Fin 1.
Proof. reflexivity. Qed.

Lemma EE_theta_step_spec (ACA D0 dzA : double) :
  EE_theta_step ACA D0 dzA = EE_step_spec ACA D0 dzA.
Proof.
  unfold EE_theta_step, EE_step_spec.
  rewrite !dneg_mul_l, <- signed_square_code_spec, <- !dneg_mul_l.
  destruct (dzA <? dzero)%D; by rewrite ?dneg_Fin_1, ?dneg_Fin_m1.
Qed.

Lemma S_da_aca_spec (ACA add del : double) :
  is_nan (add + del)%D = false →
  S_da ACA add del = S_aca_spec ACA add del.
Proof.
  unfold S_da, S_aca_spec, dzero. cbv zeta.
  destruct (add + del)%D as [q| | |] eqn:Hsum; intros Hnan;
    try discriminate; try reflexivity.
  rewrite !dltb_Fin.
  destruct (decide (Fin q = Fin 0)) as [[= ->]|Hne].
  - reflexivity.
  - assert (q ≠ 0) as Hq by congruence.
    destruct (Qclt_le_dec q 0) as [Hlt|Hle].
    + by rewrite (bool_decide_eq_true_2 _ Hlt).
    + assert (0 < q) as Hgt.
      { destruct (Qcle_lt_or_eq _ _ Hle); [done|congruence]. }
      rewrite (bool_decide_eq_true_2 _ Hgt). by rewrite orb_true_r.
Qed.

Lemma S_theta_step_spec (ACA add del : double) :
  S_theta_step ACA add del = S_step_spec ACA add del.
Proof.
  unfold S_theta_step, S_step_spec. rewrite signed_square_code_spec.
  unfold S_dzA. cbv zeta.
  destruct (is_nan (add + del)%D) eqn:Hnan.
  - unfold S_da, S_aca_spec, sign, dzero. cbv zeta.
    destruct add as [a| | |], del as [b| | |]; try discriminate Hnan;
      try reflexivity.
    all: cbn [dsub dadd dneg dltb is_nan dmul]; rewrite ?dmul_NaN_r.
    all: try reflexivity.
    all: by destruct ACA; vm_compute.
  - by rewrite S_da_aca_spec.
Qed.

(** ** Enough draws give a result *)

Lemma tape_01_S k :
  tape_01 (S k) = mk_rng (0 :: 1 :: ints (tape_01 k))%nat
                    (half :: unifs (tape_01 k)).
Proof. reflexivity. Qed.

Lemma half_in_unit : 0 < half ∧ half < 1.
Proof. split; reflexivity. Qed.

Lemma int_urand_cons n x xs us :
  (x < n)%nat → int_urand n (mk_rng (x :: xs) us) = Ok (x, mk_rng xs us).
Proof. intros Hx. unfold int_urand. cbn. by rewrite decide_True. Qed.

Lemma draw_other_cons pick n i fuel x xs us :
  (x < n)%nat → i ≠ pick x →
  draw_other pick n i (S fuel) (mk_rng (x :: xs) us)
  = Ok (pick x, mk_rng xs us).
Proof.
  intros Hx Hne. cbn [draw_other]. rewrite int_urand_cons by done.
  cbn. by rewrite decide_False.
Qed.

Lemma select_unconditional_01 g fuel xs us :
  (2 ≤ num_nodes g)%nat →
  select_unconditional g false (S fuel) (mk_rng (0 :: 1 :: xs)%nat us)
  = Ok (0, 1, isArc g 0 1, mk_rng xs us)%nat.
Proof.
  intros Hn. cbn [select_unconditional].
  rewrite int_urand_cons by lia. cbn [mbind outcome_bind ints length].
  rewrite draw_other_cons by (unfold id; lia). reflexivity.
Qed.

(** On the tape of proposals of the dyad [(0, 1)] a turn of the plain
    sampler's loop ends and takes one proposal off the tape. *)
Lemma sampler_step_returns dexp e theta pm s k :
  (2 ≤ num_nodes (sw_graph s))%nat →
  sw_rng s = tape_01 (S k) →
  ∃ s' pr,
    sampler_step dexp e theta pm false false s = Ok (s', pr) ∧
    sw_rng s' = tape_01 k ∧
    num_nodes (sw_graph s') = num_nodes (sw_graph s).
Proof.
  intros Hn Hr. unfold sampler_step, select_dyad. rewrite Hr, tape_01_S.
  rewrite select_unconditional_01 by done. cbn [mbind outcome_bind].
  unfold urand. cbn [unifs ints].
  rewrite decide_True by apply half_in_unit. cbn [mbind outcome_bind].
  destruct (Fin half <? dexp _)%D; eexists; eexists;
    (split; [reflexivity|]); cbn [sw_rng sw_graph fst];
    (split; [by destruct (tape_01 k)|]);
    by destruct pm, (isArc (sw_graph s) 0 1).
Qed.

Lemma sampler_loop_returns dexp e theta pm m s k :
  (2 ≤ num_nodes (sw_graph s))%nat →
  sw_rng s = tape_01 (m + k) →
  ∃ s',
    sampler_loop dexp e theta pm false false m s = Ok s' ∧
    sw_rng s' = tape_01 k ∧
    num_nodes (sw_graph s') = num_nodes (sw_graph s).
Proof.
  revert s. induction m as [|m IH]; intros s Hn Hr.
  - by exists s.
  - destruct (sampler_step_returns dexp e theta pm s (m + k) Hn Hr)
      as (s1 & pr & Hstep & Hr1 & Hn1).
    destruct (IH s1) as (s' & Hloop & Hr' & Hn'); [lia|done|].
    exists s'. cbn [sampler_loop]. rewrite Hstep.
    cbn [mbind outcome_bind fst]. split; [done|]. split; [done|lia].
Qed.

(** The plain sampler returns on a tape with enough draws. *)
Lemma basicSampler_returns dexp g e theta m pm k :
  (2 ≤ num_nodes g)%nat →
  ∃ res,
    basicSampler dexp g e theta m pm false false (tape_01 (m + k)) = Ok res ∧
    sa_rng res = tape_01 k ∧
    num_nodes (sa_graph res) = num_nodes g.
Proof.
  intros Hn. unfold basicSampler.
  destruct (sampler_loop_returns dexp e theta pm m
              (mk_sweep g (tape_01 (m + k)) (replicate (n_params e) dzero)
                 (replicate (n_params e) dzero) 0) k Hn eq_refl)
    as (s' & Hloop & Hr & Hn').
  rewrite Hloop. cbn. eexists. split; [reflexivity|]. by cbn.
Qed.

(** Algorithm S with the plain sampler returns on a tape with enough
    draws. *)
Lemma S_loop_returns dexp ifdSampler e M1 m ACA K acv count t s k :
  (2 ≤ num_nodes (ss_graph s))%nat →
  ss_rng s = tape_01 (count * m + k) →
  ∃ s',
    S_loop dexp ifdSampler false false e M1 m ACA false K acv count t s
    = Ok s' ∧
    ss_rng s' = tape_01 k.
Proof.
  revert t s. induction count as [|count IH]; intros t s Hn Hr.
  - by exists s.
  - destruct (basicSampler_returns dexp (ss_graph s) e (ss_theta s) m false
                (count * m + k) Hn) as (res & Hres & Hrng & Hnodes).
    cbn [S_loop]. unfold S_step, run_sampler. rewrite Hr.
    replace (S count * m + k)%nat with (m + (count * m + k))%nat by lia.
    rewrite Hres. cbn [mbind outcome_bind].
    apply IH; cbn; [lia|done].
Qed.

Lemma algorithm_S_returns dexp ifdSampler arcCorrection g e M1 m ACA K :
  (2 ≤ num_nodes g)%nat →
  ∃ res,
    algorithm_S dexp ifdSampler arcCorrection false false g e M1 m ACA false
      K (tape_01 (M1 * m)) = Ok res.
Proof.
  intros Hn. unfold algorithm_S.
  destruct (S_loop_returns dexp ifdSampler e M1 m ACA K (arcCorrection g)
              M1 0 (S_init g e (tape_01 (M1 * m))) 0 Hn)
    as (s' & Hloop & _); [cbn; f_equal; lia|].
  rewrite Hloop. cbn. by eexists.
Qed.

(** ** Algorithm EE and Algorithm S: the parameter updates *)

Lemma bind_Ok {A B : Type} (m : outcome A) (k : A → outcome B) (b : B) :
  (m ≫= k) = Ok b ↔ ∃ a, m = Ok a ∧ k a = Ok b.
Proof.
  destruct m; cbn; split; try (intros [a' [? ?]]); try discriminate; eauto.
  by simplify_eq.
Qed.

Lemma sign_zero : sign dzero = Fin 0.
Proof. reflexivity. Qed.

Lemma S_loop_rows dexp ifdSampler uc fr e M1 m ACA ifd K acv count t s s' :
  S_loop dexp ifdSampler uc fr e M1 m ACA ifd K acv count t s = Ok s' →
  map row_t (ss_rows s') =
  map row_t (ss_rows s) ++
  map (λ i, as_signed (wrap (Z.of_nat i - Z.of_nat M1))) (seq t count).
Proof.
  revert t s. induction count as [|count IH]; intros t s H; cbn in H.
  - simplify_eq. by rewrite app_nil_r.
  - apply bind_Ok in H as (s1 & Hstep & Hloop).
    apply IH in Hloop. rewrite Hloop. cbn [seq map].
    unfold S_step in Hstep. apply bind_Ok in Hstep as (o & _ & Hs1).
    simplify_eq. cbn. by rewrite map_app, <- app_assoc.
Qed.



(** ** The basic sampler *)

Lemma int_urand_Ok n r x r' :
  int_urand n r = Ok (x, r') →
  (x < n)%nat ∧ ints r = x :: ints r' ∧ unifs r' = unifs r.
Proof.
  unfold int_urand. destruct (ints r) as [|y ys] eqn:E; [discriminate|].
  case_decide; [|discriminate]. intros [= <- <-]. by cbn.
Qed.

Lemma urand_Ok r u r' :
  urand r = Ok (u, r') →
  ∃ q, u = Fin q ∧ 0 < q ∧ q < 1 ∧ unifs r = q :: unifs r' ∧ ints r' = ints r.
Proof.
  unfold urand. destruct (unifs r) as [|q qs] eqn:E; [discriminate|].
  case_decide as Hq; [|discriminate]. intros [= <- <-].
  exists q. by destruct Hq.
Qed.

Lemma assert_Ok b u : assert b = Ok u → b = true.
Proof. by destruct b. Qed.

Lemma draw_other_Ok pick n i fuel r j r' :
  draw_other pick n i fuel r = Ok (j, r') →
  j ≠ i ∧ ∃ x, (x < n)%nat ∧ j = pick x.
Proof.
  revert r. induction fuel as [|fuel IH]; intros r H; [discriminate|].
  cbn in H. apply bind_Ok in H as ([x r1] & Hx & H).
  apply int_urand_Ok in Hx as (Hlt & _).
  case_decide as Hij.
  - by apply IH in H.
  - simplify_eq. split; [congruence|]. by exists x.
Qed.

Lemma select_unconditional_Ok g fr fuel r i j isDelete r' :
  select_unconditional g fr fuel r = Ok (i, j, isDelete, r') →
  isDelete = isArc g i j ∧ i ≠ j ∧
  (i < num_nodes g)%nat ∧ (j < num_nodes g)%nat ∧
  (fr = true → isDelete = false → isArc g j i = false).
Proof.
  revert r. induction fuel as [|fuel IH]; intros r H; [discriminate|].
  cbn -[draw_other] in H. apply bind_Ok in H as ([i0 r1] & Hi & H).
  apply bind_Ok in H as ([j0 r2] & Hj & H).
  apply int_urand_Ok in Hi as (Hi & _).
  apply draw_other_Ok in Hj as (Hne & x & Hx & ->).
  destruct (fr && negb (isArc g i0 (id x)) && isArc g (id x) i0) eqn:Hc.
  - by apply IH in H.
  - simplify_eq. unfold id in *. repeat split; try done.
    intros -> Hd. rewrite Hd in Hc. cbn in Hc. done.
Qed.

Lemma select_conditional_Ok g fuel r i j r' :
  select_conditional g fuel r = Ok (i, j, r') →
  i ∈ inner_nodes g ∧ j ∈ inner_nodes g ∧ i ≠ j ∧
  (zone_of g i < max_zone g)%nat ∧ (zone_of g j < max_zone g)%nat ∧
  (zone_distance g i j ≤ 1)%Z ∧
  last_tie_to_prev_wave g i j = false.
Proof.
  revert r. induction fuel as [|fuel IH]; intros r H; [discriminate|].
  cbn -[draw_other] in H. apply bind_Ok in H as ([x r1] & Hx & H).
  apply bind_Ok in H as ([j0 r2] & Hj & H).
  apply bind_Ok in H as ([] & Hz & H).
  apply bind_Ok in H as ([] & _ & H).
  apply int_urand_Ok in Hx as (Hx & _).
  apply draw_other_Ok in Hj as (Hne & y & Hy & ->).
  apply assert_Ok, andb_true_iff in Hz as [Hzi Hzj].
  apply bool_decide_eq_true in Hzi, Hzj.
  match type of H with (if ?c then _ else _) = _ => destruct c eqn:Hc end.
  - by apply IH in H.
  - simplify_eq. apply orb_false_iff in Hc as [Hd Hl].
    apply bool_decide_eq_false in Hd.
    unfold num_inner_nodes in *.
    repeat split; try done; try lia.
    + apply list_elem_of_In, nth_In. done.
    + apply list_elem_of_In, nth_In. done.
Qed.

Lemma select_dyad_Ok g uc fr r i j isDelete r' :
  select_dyad g uc fr r = Ok (i, j, isDelete, r') →
  i ≠ j ∧ (isDelete = true → isArc g i j = true) ∧
  (uc = true → isDelete = false) ∧
  (uc = false → isDelete = isArc g i j).
Proof.
  unfold select_dyad. destruct uc.
  - intros H. apply bind_Ok in H as ([] & _ & H).
    apply bind_Ok in H as ([[i0 j0] r0] & Hsel & H). simplify_eq.
    apply select_conditional_Ok in Hsel as (_ & _ & Hne & _).
    repeat split; try done.
  - intros H. apply select_unconditional_Ok in H as (-> & Hne & _).
    repeat split; try done.
Qed.

(** What a turn of the loop is made of. *)
Lemma sampler_step_Ok dexp e theta pm uc fr s s' pr :
  sampler_step dexp e theta pm uc fr s = Ok (s', pr) →
  ∃ i j isDelete r1 u r2,
    select_dyad (sw_graph s) uc fr (sw_rng s) = Ok (i, j, isDelete, r1) ∧
    urand r1 = Ok (u, r2) ∧
    let g1 := if isDelete then removeArc (sw_graph s) i j else sw_graph s in
    let cs := changestats_of e g1 i j in
    let accepted := (u <? dexp (total_of theta isDelete cs))%D in
    pr = mk_proposal i j isDelete cs (total_of theta isDelete cs) u accepted ∧
    sw_rng s' = r2 ∧
    sw_graph s' =
      (if accepted then
         if pm then (if isDelete then g1 else insertArc g1 i j)
         else (if isDelete then insertArc g1 i j else g1)
       else if isDelete then insertArc g1 i j else g1) ∧
    sw_add s' =
      (if accepted && negb isDelete then accumulate (sw_add s) cs
       else sw_add s) ∧
    sw_del s' =
      (if accepted && isDelete then accumulate (sw_del s) cs else sw_del s) ∧
    sw_accepted s' = (sw_accepted s + (if accepted then 1 else 0))%nat.
Proof.
  unfold sampler_step. intros H.
  apply bind_Ok in H as ([[[i j] isDelete] r1] & Hsel & H).
  apply bind_Ok in H as ([u r2] & Hu & H).
  exists i, j, isDelete, r1, u, r2. split; [done|]. split; [done|]. cbn zeta.
  destruct (u <? dexp _)%D eqn:Hacc; simplify_eq; cbn;
    destruct isDelete, pm; cbn; repeat split; try done; lia.
Qed.

Lemma arcs_insert_remove g i j :
  isArc g i j = true → arcs (insertArc (removeArc g i j) i j) = arcs g.
Proof.
  intros H%bool_decide_eq_true. cbn.
  apply set_eq. intros a. rewrite elem_of_union, elem_of_difference,
    elem_of_singleton.
  destruct (decide (a = (i, j))) as [->|]; tauto.
Qed.

Lemma total_of_acc (theta cs : list double) (s a : double) :
  fold_left (λ total '(th, c), total + th * s * c)%D (zip theta cs) a
  = (a + foldr dadd dzero (zip_with (λ th c, th * s * c)%D theta cs))%D.
Proof.
  revert cs a. induction theta as [|th theta IH]; intros [|c cs] a; cbn;
    rewrite ?dadd_0_r; try done.
  by rewrite IH, dadd_assoc.
Qed.

Lemma total_of_spec theta isDelete cs :
  total_of theta isDelete cs = total_spec theta (toggle_sign isDelete) cs.
Proof. unfold total_of, total_spec. by rewrite total_of_acc, dadd_0_l. Qed.

(** C3, as the code has it: a proposal computes
    [total = sum_k theta[k] * s * delta[k]] with [s = -1] for a delete (the
    arc removed first) and [+1] for an add, draws [u] from the open unit
    interval, and is accepted if and only if [u < exp(total)]: accepted when
    [exp(total)] is plus infinity, rejected when it is NaN.  In the plain
    sampler the deletes are the proposals on an existing arc. *)
Theorem accept_iff_u_lt_exp_total
    (dexp : double → double) (e : effects) (theta : list double)
    (performMove useConditionalEstimation forbidReciprocity : bool)
    (s s' : sweep) (pr : proposal) :
  sampler_step dexp e theta performMove useConditionalEstimation
    forbidReciprocity s = Ok (s', pr) →
  let g1 := if pr_isDelete pr
            then removeArc (sw_graph s) (pr_i pr) (pr_j pr)
            else sw_graph s in
  pr_changestats pr = changestats_of e g1 (pr_i pr) (pr_j pr) ∧
  pr_total pr =
    total_spec theta (if pr_isDelete pr then Fin (- 1) else Fin 1)
      (pr_changestats pr) ∧
  (∃ q, pr_u pr = Fin q ∧ 0 < q ∧ q < 1) ∧
  pr_accepted pr = (pr_u pr <? dexp (pr_total pr))%D ∧
  sw_accepted s' =
    (sw_accepted s + (if pr_accepted pr then 1 else 0))%nat ∧
  (dexp (pr_total pr) = PInf → pr_accepted pr = true) ∧
  (dexp (pr_total pr) = NaN → pr_accepted pr = false) ∧
  (useConditionalEstimation = false →
   pr_isDelete pr = isArc (sw_graph s) (pr_i pr) (pr_j pr)).
Proof.
  intros H. apply sampler_step_Ok in H
    as (i & j & isDelete & r1 & u & r2 & Hsel & Hu & -> & _ & _ & _ & _ & Hacc).
  apply urand_Ok in Hu as (q & -> & Hq0 & Hq1 & _).
  apply select_dyad_Ok in Hsel as (_ & _ & _ & Hdel). cbn.
  repeat split; try done.
  - apply total_of_spec.
  - by exists q.
  - by intros ->.
  - by intros ->.
Qed.

Lemma sampler_loop_invariant dexp e theta pm uc fr (P : sweep → Prop) :
  (∀ s s' pr, P s → sampler_step dexp e theta pm uc fr s = Ok (s', pr) → P s') →
  ∀ m s s', P s → sampler_loop dexp e theta pm uc fr m s = Ok s' → P s'.
Proof.
  intros Hstep. induction m as [|m IH]; intros s s' HP H; cbn in H.
  - by simplify_eq.
  - apply bind_Ok in H as ([s1 pr] & H1 & H). eauto.
Qed.

Lemma basicSampler_Ok dexp g e theta m pm uc fr r res :
  basicSampler dexp g e theta m pm uc fr r = Ok res →
  ∃ s, sampler_loop dexp e theta pm uc fr m
         (mk_sweep g r (replicate (n_params e) dzero)
            (replicate (n_params e) dzero) 0) = Ok s ∧
       res = mk_sampled (sw_graph s) (of_nat (sw_accepted s) / of_nat m)%D
               (sw_add s) (sw_del s) (sw_rng s).
Proof.
  unfold basicSampler. intros H. apply bind_Ok in H as (s & Hs & H).
  exists s. by simplify_eq.
Qed.

Lemma sampler_step_arcs dexp e theta pm uc fr s s' pr :
  sampler_step dexp e theta pm uc fr s = Ok (s', pr) →
  pm = false ∨ pr_accepted pr = false →
  arcs (sw_graph s') = arcs (sw_graph s).
Proof.
  intros H Hcase. apply sampler_step_Ok in H
    as (i & j & isDelete & r1 & u & r2 & Hsel & Hu & -> & _ & Hg & _).
  apply select_dyad_Ok in Hsel as (_ & Hdel & _).
  rewrite Hg. cbn in Hcase |- *.
  destruct isDelete.
  - specialize (Hdel eq_refl).
    destruct Hcase as [-> | ->]; rewrite ?arcs_insert_remove; try done.
    destruct (u <? _)%D; by rewrite arcs_insert_remove.
  - destruct Hcase as [-> | ->]; try done. by destruct (u <? _)%D.
Qed.

(** C5: with [performMove] false a call of the basic sampler leaves the arc
    set as it found it, and so does every rejected proposal in any mode. *)
Theorem basicSampler_restores_arcs
    (dexp : double → double) (g : digraph) (e : effects)
    (theta : list double) (sampler_m : nat)
    (useConditionalEstimation forbidReciprocity : bool) (r : rng)
    (res : sampled) :
  basicSampler dexp g e theta sampler_m false useConditionalEstimation
    forbidReciprocity r = Ok res →
  arcs (sa_graph res) = arcs g ∧
  (∀ performMove s s' pr,
     sampler_step dexp e theta performMove useConditionalEstimation
       forbidReciprocity s = Ok (s', pr) →
     performMove = false ∨ pr_accepted pr = false →
     arcs (sw_graph s') = arcs (sw_graph s)).
Proof.
  intros H. split; [|intros; by eapply sampler_step_arcs].
  apply basicSampler_Ok in H as (s & Hloop & ->). cbn.
  eapply (sampler_loop_invariant _ _ _ _ _ _
            (λ s, arcs (sw_graph s) = arcs g)) in Hloop; [done| |done].
  intros s0 s1 pr HP Hstep. rewrite <- HP.
  eapply sampler_step_arcs; eauto.
Qed.

Lemma nonneg_add x y : nonneg x → nonneg y → nonneg (x + y)%D.
Proof.
  unfold nonneg, dzero.
  destruct x as [a| | |], y as [b| | |]; cbn; try done.
  intros Ha%bool_decide_eq_true Hb%bool_decide_eq_true.
  apply bool_decide_eq_true. by apply Qcplus_nonneg_nonneg.
Qed.

Lemma accumulate_nonneg acc cs :
  Forall nonneg acc → Forall nonneg cs → Forall nonneg (accumulate acc cs).
Proof.
  intros Hacc. revert cs. induction Hacc as [|x acc Hx Hacc IH];
    intros cs Hcs; destruct Hcs as [|c cs Hc Hcs]; cbn; constructor.
  - by apply nonneg_add.
  - by apply IH.
Qed.

Lemma changestats_nonneg e g i j :
  nonneg_effects e → Forall nonneg (changestats_of e g i j).
Proof.
  intros (Hs & Ha & Hd). unfold changestats_of.
  repeat apply Forall_app_2.
  - apply Forall_map, Forall_forall. intros f Hf. by apply Hs.
  - assert (∀ fs, (∀ f, f ∈ fs → f ∈ attr_change_stats_funcs e) →
              ∀ idx, Forall nonneg
                (zip_with (λ (f : attr_change_stats_func) a, f g i j a) fs idx))
      as Hzip.
    { induction fs as [|f fs IH]; intros Hin [|a idx]; cbn; try constructor.
      - apply Ha, Hin. by left.
      - apply IH. intros f' ?. apply Hin. by right. }
    by apply Hzip.
  - apply Forall_map, Forall_forall. intros f Hf. by apply Hd.
Qed.

Lemma nonneg_zero : nonneg dzero.
Proof. reflexivity. Qed.

(** C6, as the code has it: when every change statistic is non-negative,
    the two output vectors of a call are non-negative in every component. *)
Theorem change_stats_sums_nonneg
    (dexp : double → double) (g : digraph) (e : effects)
    (theta : list double) (sampler_m : nat)
    (performMove useConditionalEstimation forbidReciprocity : bool) (r : rng)
    (res : sampled) :
  nonneg_effects e →
  basicSampler dexp g e theta sampler_m performMove useConditionalEstimation
    forbidReciprocity r = Ok res →
  Forall nonneg (sa_add res) ∧ Forall nonneg (sa_del res).
Proof.
  intros He H. apply basicSampler_Ok in H as (s & Hloop & ->). cbn.
  eapply (sampler_loop_invariant _ _ _ _ _ _
            (λ s, Forall nonneg (sw_add s) ∧ Forall nonneg (sw_del s)))
    in Hloop; [done| |].
  - intros s0 s1 pr [Hadd Hdel] Hstep. apply sampler_step_Ok in Hstep
      as (i & j & isDelete & r1 & u & r2 & _ & _ & _ & _ & _ & -> & -> & _).
    cbn zeta. split.
    + destruct (_ && _); [|done].
      apply accumulate_nonneg; [done|]. by apply changestats_nonneg.
    + destruct (_ && _); [|done].
      apply accumulate_nonneg; [done|]. by apply changestats_nonneg.
  - cbn. split; apply Forall_replicate, nonneg_zero.
Qed.

Lemma isArc_insertArc_ne g i j a b :
  (a, b) ≠ (i, j) → isArc (insertArc g i j) a b = isArc g a b.
Proof.
  intros Hne. unfold isArc. cbn. apply bool_decide_ext.
  rewrite elem_of_union, elem_of_singleton. tauto.
Qed.

(** Under conditional estimation a turn of the loop picks both nodes among
    the inner nodes and can only add the arc between them. *)
Lemma sampler_step_conditional dexp e theta pm fr s s' pr :
  sampler_step dexp e theta pm true fr s = Ok (s', pr) →
  let g := sw_graph s in
  pr_i pr ∈ inner_nodes g ∧ pr_j pr ∈ inner_nodes g ∧ pr_i pr ≠ pr_j pr ∧
  (zone_of g (pr_i pr) < max_zone g)%nat ∧
  (zone_of g (pr_j pr) < max_zone g)%nat ∧
  (zone_distance g (pr_i pr) (pr_j pr) ≤ 1)%Z ∧
  last_tie_to_prev_wave g (pr_i pr) (pr_j pr) = false ∧
  pr_isDelete pr = false ∧
  (sw_graph s' = g ∨ sw_graph s' = insertArc g (pr_i pr) (pr_j pr)).
Proof.
  intros H. apply sampler_step_Ok in H
    as (i & j & isDelete & r1 & u & r2 & Hsel & Hu & -> & _ & Hg & _).
  unfold select_dyad in Hsel.
  apply bind_Ok in Hsel as ([] & _ & Hsel).
  apply bind_Ok in Hsel as ([[i0 j0] r0] & Hsel & ?). simplify_eq.
  apply select_conditional_Ok in Hsel
    as (Hi & Hj & Hne & Hzi & Hzj & Hd & Hl).
  cbn. repeat split; try done.
  rewrite Hg. cbn. destruct (u <? _)%D, pm; auto.
Qed.

(** C7: under conditional estimation every proposal takes both nodes from
    [inner_nodes], in zones below the largest and at most one zone apart,
    and is not the last tie of either node to its preceding wave; so no arc
    with a node of the outermost wave is changed by a call. *)
Theorem conditional_estimation_fixes_outermost_wave
    (dexp : double → double) (g : digraph) (e : effects)
    (theta : list double) (sampler_m : nat)
    (performMove forbidReciprocity : bool) (r : rng) (res : sampled) :
  basicSampler dexp g e theta sampler_m performMove true forbidReciprocity r
  = Ok res →
  (∀ a b, outermost g a ∨ outermost g b →
     isArc (sa_graph res) a b = isArc g a b) ∧
  (∀ s s' pr,
     sampler_step dexp e theta performMove true forbidReciprocity s
     = Ok (s', pr) →
     let g0 := sw_graph s in
     pr_i pr ∈ inner_nodes g0 ∧ pr_j pr ∈ inner_nodes g0 ∧
     (zone_of g0 (pr_i pr) < max_zone g0)%nat ∧
     (zone_of g0 (pr_j pr) < max_zone g0)%nat ∧
     (zone_distance g0 (pr_i pr) (pr_j pr) ≤ 1)%Z ∧
     ¬ (isArcIgnoreDirection g0 (pr_i pr) (pr_j pr) = true ∧
        ((zone_of g0 (pr_j pr) < zone_of g0 (pr_i pr))%nat ∧
         prev_wave_degree_of g0 (pr_i pr) = 1%nat ∨
         (zone_of g0 (pr_i pr) < zone_of g0 (pr_j pr))%nat ∧
         prev_wave_degree_of g0 (pr_j pr) = 1%nat)) ∧
     (∀ a b, outermost g0 a ∨ outermost g0 b →
        isArc (sw_graph s') a b = isArc g0 a b)).
Proof.
  intros H.
  assert (∀ s s' pr,
     sampler_step dexp e theta performMove true forbidReciprocity s
     = Ok (s', pr) →
     zone (sw_graph s') = zone (sw_graph s) ∧
     max_zone (sw_graph s') = max_zone (sw_graph s) ∧
     (∀ a b, outermost (sw_graph s) a ∨ outermost (sw_graph s) b →
        isArc (sw_graph s') a b = isArc (sw_graph s) a b)) as Hframe.
  { intros s s' pr Hstep. apply sampler_step_conditional in Hstep
      as (_ & _ & _ & Hzi & Hzj & _ & _ & _ & [-> | ->]); [done|].
    cbn. repeat split; try done. intros a b Hout.
    apply isArc_insertArc_ne. unfold outermost in Hout.
    intros [= -> ->]. lia. }
  split.
  - apply basicSampler_Ok in H as (sf & Hloop & ->). cbn.
    eapply (sampler_loop_invariant _ _ _ _ _ _
              (λ s, zone (sw_graph s) = zone g ∧
                    max_zone (sw_graph s) = max_zone g ∧
                    ∀ a b, outermost g a ∨ outermost g b →
                      isArc (sw_graph s) a b = isArc g a b))
      in Hloop; [by destruct Hloop as (_ & _ & ?)| |done].
    intros s0 s1 pr (Hz & Hm & Harcs) Hstep.
    apply Hframe in Hstep as (Hz' & Hm' & Harcs').
    split; [congruence|]. split; [congruence|].
    intros a b Hout. rewrite <- Harcs by done. apply Harcs'.
    unfold outermost, zone_of in *. by rewrite Hz, Hm.
  - intros s s' pr Hstep.
    pose proof (Hframe _ _ _ Hstep) as (_ & _ & Harcs).
    apply sampler_step_conditional in Hstep
      as (Hi & Hj & _ & Hzi & Hzj & Hd & Hl & _).
    cbn. repeat split; try done.
    intros [Harc Hdeg]. unfold last_tie_to_prev_wave in Hl.
    rewrite Harc in Hl. cbn in Hl.
    apply orb_false_iff in Hl as [Hl1 Hl2].
    destruct Hdeg as [[Hz Hp] | [Hz Hp]].
    + rewrite !bool_decide_eq_true_2 in Hl1 by done. done.
    + rewrite !bool_decide_eq_true_2 in Hl2 by done. done.
Qed.

Lemma sampler_step_allarcs dexp e theta pm uc fr s s' pr :
  sampler_step dexp e theta pm uc fr s = Ok (s', pr) →
  allarcs (sw_graph s') = allarcs (sw_graph s).
Proof.
  intros H. apply sampler_step_Ok in H
    as (i & j & isDelete & r1 & u & r2 & _ & _ & _ & _ & -> & _).
  cbn. by destruct (u <? _)%D, pm, isDelete.
Qed.

(** An accepted move of the plain sampler with [performMove] changes the arc
    set: an add inserts an arc that was absent, a delete removes one that was
    present. *)
Lemma sampler_step_accepted_changes dexp e theta fr s s' pr :
  sampler_step dexp e theta true false fr s = Ok (s', pr) →
  pr_accepted pr = true →
  arcs (sw_graph s') ≠ arcs (sw_graph s).
Proof.
  intros H Hacc. apply sampler_step_Ok in H
    as (i & j & isDelete & r1 & u & r2 & Hsel & _ & -> & _ & Hg & _).
  apply select_dyad_Ok in Hsel as (_ & _ & _ & Hdel).
  specialize (Hdel eq_refl). cbn in Hacc. rewrite Hg, Hacc.
  unfold isArc in Hdel. symmetry in Hdel.
  destruct isDelete; cbn; intros Heq.
  - apply bool_decide_eq_true in Hdel. rewrite <- Heq in Hdel.
    apply elem_of_difference in Hdel as [_ Hne].
    apply Hne. by apply elem_of_singleton.
  - apply bool_decide_eq_false in Hdel. apply Hdel. rewrite <- Heq.
    apply elem_of_union. left. by apply elem_of_singleton.
Qed.

(** C10, as the code has it: a call never writes the flat list [allarcs];
    an accepted move of the plain sampler with [performMove] makes a flat
    list that described the graph stop describing it, and after the call it
    describes the graph exactly when the accepted moves have cancelled out;
    [isArc] keeps answering from the adjacency structure. *)
Theorem basicSampler_leaves_allarcs
    (dexp : double → double) (g : digraph) (e : effects)
    (theta : list double) (sampler_m : nat)
    (performMove useConditionalEstimation forbidReciprocity : bool) (r : rng)
    (res : sampled) :
  basicSampler dexp g e theta sampler_m performMove useConditionalEstimation
    forbidReciprocity r = Ok res →
  allarcs (sa_graph res) = allarcs g ∧
  (allarcs_consistent g →
   (allarcs_consistent (sa_graph res) ↔ arcs (sa_graph res) = arcs g)) ∧
  (∀ s s' pr,
     sampler_step dexp e theta true false forbidReciprocity s = Ok (s', pr) →
     pr_accepted pr = true →
     allarcs_consistent (sw_graph s) → ¬ allarcs_consistent (sw_graph s')) ∧
  (∀ i j, isArc (sa_graph res) i j = true ↔ (i, j) ∈ arcs (sa_graph res)).
Proof.
  intros H.
  assert (allarcs (sa_graph res) = allarcs g) as Hall.
  { apply basicSampler_Ok in H as (sf & Hloop & ->). cbn.
    eapply (sampler_loop_invariant _ _ _ _ _ _
              (λ s, allarcs (sw_graph s) = allarcs g)) in Hloop; [done| |done].
    intros s0 s1 pr HP Hstep. rewrite <- HP.
    by eapply sampler_step_allarcs. }
  split; [done|]. split; [|split].
  - unfold allarcs_consistent. rewrite Hall. intros ->. split; congruence.
  - unfold allarcs_consistent. intros s s' pr Hstep Hacc Hc Hc'.
    eapply sampler_step_accepted_changes; [done..|].
    rewrite <- Hc, <- Hc'. f_equal. by eapply sampler_step_allarcs.
  - intros i j. unfold isArc. apply bool_decide_eq_true.
Qed.

(** ** Algorithm S: the derivative estimate *)

(** A sum of squares: not negative, when it is a number at all. *)
Definition nonneg_or_nan (x : double) : Prop := x = NaN ∨ nonneg x.

Lemma square_nonneg_or_nan x : nonneg_or_nan (x * x)%D.
Proof.
  destruct x as [a| | |]; cbn; [right|right|right|left]; try done.
  unfold nonneg, dzero. cbn. apply bool_decide_eq_true.
  destruct (Qclt_le_dec a 0) as [Hlt|Hle].
  - apply Qclt_le_weak. replace (a * a) with ((- a) * (- a)) by ring.
    assert (0 < - a).
    { apply (Qcplus_lt_mono_r _ _ a). by ring_simplify. }
    by apply Qcmult_pos_pos.
  - replace 0 with (0 * a) by ring. by apply Qcmult_le_compat_r.
Qed.

Lemma nonneg_or_nan_add x y :
  nonneg_or_nan x → nonneg_or_nan y → nonneg_or_nan (x + y)%D.
Proof.
  intros [->|Hx] [->|Hy]; [by left|by left| |].
  - left. by destruct x.
  - right. by apply nonneg_add.
Qed.

Lemma S_loop_invariant dexp ifdSampler uc fr e M1 m ACA ifd K acv
    (P : S_state → Prop) :
  (∀ t s s', P s →
     S_step dexp ifdSampler uc fr e M1 m ACA ifd K acv t s = Ok s' → P s') →
  ∀ count t s s', P s →
    S_loop dexp ifdSampler uc fr e M1 m ACA ifd K acv count t s = Ok s' →
    P s'.
Proof.
  intros Hstep. induction count as [|count IH]; intros t s s' HP H; cbn in H.
  - by simplify_eq.
  - apply bind_Ok in H as (s1 & H1 & H). eauto.
Qed.

Lemma S_step_D0 dexp ifdSampler uc fr e M1 m ACA ifd K acv t s s' :
  S_step dexp ifdSampler uc fr e M1 m ACA ifd K acv t s = Ok s' →
  Forall nonneg_or_nan (ss_D0 s) → Forall nonneg_or_nan (ss_D0 s').
Proof.
  unfold S_step. intros H HD0. apply bind_Ok in H as (o & _ & H).
  simplify_eq. cbn. generalize (zip (dr_add o) (dr_del o)).
  induction HD0 as [|d0 D0 Hd0 HD0 IH]; intros [|[a d] l]; cbn; constructor.
  - apply nonneg_or_nan_add; [done|]. apply square_nonneg_or_nan.
  - apply IH.
Qed.


(** ** The index column of the theta file *)

Lemma wrap_small z : (0 ≤ z < uint_modulus)%Z → wrap z = z.
Proof. intros. unfold wrap. by apply Z.mod_small. Qed.

Lemma wrap_range z : (0 ≤ wrap z < uint_modulus)%Z.
Proof. unfold wrap. apply Z.mod_pos_bound. reflexivity. Qed.

Lemma as_signed_wrap_neg z :
  (- 2 ^ (uint_bits - 1) ≤ z < 0)%Z → as_signed (wrap z) = z.
Proof.
  intros Hz. unfold wrap, as_signed, uint_modulus, uint_bits in *.
  change (2 ^ (32 - 1))%Z with 2147483648%Z in *.
  change (2 ^ 32)%Z with 4294967296%Z.
  assert (z mod 4294967296 = z + 4294967296)%Z as ->.
  { rewrite <- (Z.mod_add z 1) by done. apply Z.mod_small. lia. }
  case_decide; lia.
Qed.

Lemma S_rows_negative M1 :
  (Z.of_nat M1 ≤ 2 ^ (uint_bits - 1))%Z →
  map (λ i, as_signed (wrap (Z.of_nat i - Z.of_nat M1))) (seq 0 M1)
  = S_row_indices M1.
Proof.
  intros HM1. unfold S_row_indices. apply map_ext_in. intros t Ht.
  apply in_seq in Ht. apply as_signed_wrap_neg. lia.
Qed.

Lemma EE_step_rows dexp ifdSampler uc fr e m ACA oas ifd K acv tinner s s' :
  EE_step dexp ifdSampler uc fr e m ACA oas ifd K acv tinner s = Ok s' →
  es_t s' = wrap (es_t s + 1) ∧
  map row_t (es_theta_rows s') =
    map row_t (es_theta_rows s) ++
    (if oas || bool_decide (tinner = 0%nat) then [es_t s] else []).
Proof.
  unfold EE_step. intros H. apply bind_Ok in H as (o & _ & H).
  simplify_eq. cbn. split; [done|].
  destruct (oas || _); [|by rewrite app_nil_r]. by rewrite map_app.
Qed.

Lemma EE_inner_rows dexp ifdSampler uc fr e m ACA oas ifd K acv
    count tinner tm s s' tm' :
  EE_inner dexp ifdSampler uc fr e m ACA oas ifd K acv count tinner tm s
  = Ok (s', tm') →
  (0 ≤ es_t s < uint_modulus)%Z →
  (es_t s + Z.of_nat count ≤ uint_modulus)%Z →
  es_t s' = wrap (es_t s + Z.of_nat count) ∧
  map row_t (es_theta_rows s') =
    map row_t (es_theta_rows s) ++
    (if oas then map (λ i, es_t s + Z.of_nat i)%Z (seq 0 count)
     else if decide (tinner = 0%nat ∧ count ≠ 0%nat) then [es_t s] else []).
Proof.
  revert tinner tm s. induction count as [|count IH];
    intros tinner tm s H Ht0 Hmax; cbn in H.
  - simplify_eq. rewrite Z.add_0_r, wrap_small by done.
    split; [done|]. destruct oas; cbn; rewrite ?app_nil_r; [done|].
    case_decide as Hc; [by destruct Hc|by rewrite app_nil_r].
  - apply bind_Ok in H as (s1 & Hstep & H).
    apply EE_step_rows in Hstep as [Ht1 Hrows1].
    destruct (decide (count = 0%nat)) as [->|Hcount].
    + cbn in H. simplify_eq. rewrite Ht1. split; [done|].
      rewrite Hrows1. destruct oas; cbn; [by rewrite Z.add_0_r|].
      destruct (decide (tinner = 0%nat)) as [->|Hne]; cbn.
      * by rewrite decide_True.
      * rewrite bool_decide_eq_false_2 by done.
        by rewrite decide_False by tauto.
    + assert (es_t s1 = es_t s + 1)%Z as Ht1'.
      { rewrite Ht1. apply wrap_small. lia. }
      apply IH in H as [Ht' Hrows']; [|rewrite Ht1; apply wrap_range|lia].
      rewrite Ht', Ht1'. split; [f_equal; lia|].
      rewrite Hrows', Hrows1, <- app_assoc. f_equal.
      destruct oas; cbn.
      * rewrite Z.add_0_r. f_equal. rewrite <- seq_shift, map_map.
        apply map_ext. intros i. rewrite Ht1'. lia.
      * rewrite (decide_False (P := S tinner = 0%nat ∧ _)) by lia.
        rewrite app_nil_r.
        destruct (decide (tinner = 0%nat)) as [->|Hne]; cbn.
        -- by rewrite decide_True.
        -- rewrite bool_decide_eq_false_2 by done.
           by rewrite decide_False by tauto.
Qed.

Lemma EE_adjust_rows mean_and_sd dsqrt compC tm s s' :
  EE_adjust mean_and_sd dsqrt compC tm s = Ok s' →
  es_t s' = es_t s ∧ es_theta_rows s' = es_theta_rows s.
Proof.
  unfold EE_adjust. intros H. apply bind_Ok in H as (D0 & _ & H).
  by simplify_eq.
Qed.

Lemma EE_outer_rows dexp ifdSampler mean_and_sd dsqrt uc fr e Minner m ACA
    compC oas ifd K acv count o0 s s' :
  EE_outer dexp ifdSampler mean_and_sd dsqrt uc fr e Minner m ACA compC oas
    ifd K acv count s = Ok s' →
  (count = 0%nat ∨ es_t s = Z.of_nat (o0 * Minner)) →
  (Z.of_nat ((o0 + count) * Minner) ≤ uint_modulus)%Z →
  map row_t (es_theta_rows s') =
    map row_t (es_theta_rows s) ++
    flat_map (λ o, inner_row_indices oas (Z.of_nat (o * Minner)) Minner)
      (seq o0 count).
Proof.
  revert o0 s. induction count as [|count IH]; intros o0 s H Ht Hmax;
    cbn in H.
  - simplify_eq. by rewrite app_nil_r.
  - destruct Ht as [?|Ht]; [done|].
    apply bind_Ok in H as ([s1 tm] & Hin & H).
    apply bind_Ok in H as (s2 & Hadj & H).
    apply EE_inner_rows in Hin as [Ht1 Hrows1];
      [|unfold uint_modulus, uint_bits in *; nia..].
    apply EE_adjust_rows in Hadj as [Ht2 Hrows2].
    apply (IH (S o0)) in H.
    + rewrite H, Hrows2, Hrows1, <- app_assoc. f_equal. cbn [seq flat_map].
      f_equal. unfold inner_row_indices. rewrite Ht.
      destruct oas; [done|].
      destruct (decide (Minner = 0%nat)) as [->|Hne]; cbn.
      * by rewrite decide_False by tauto.
      * by rewrite decide_True.
    + destruct (decide (count = 0%nat)); [by left|right].
      rewrite Ht2, Ht1, Ht. unfold uint_modulus, uint_bits in *.
      rewrite wrap_small; [lia|]. unfold uint_modulus, uint_bits. nia.
    + by replace (S o0 + count)%nat with (o0 + S count)%nat by lia.
Qed.

Lemma EE_row_indices_all Mouter Minner :
  EE_row_indices true Mouter Minner
  = map Z.of_nat (seq 0 (Mouter * Minner)).
Proof.
  unfold EE_row_indices, inner_row_indices.
  induction Mouter as [|Mouter IH]; [done|].
  rewrite seq_S, flat_map_app, IH. cbn [flat_map]. rewrite app_nil_r.
  replace (S Mouter * Minner)%nat with (Mouter * Minner + Minner)%nat by lia.
  rewrite seq_app, map_app. f_equal. cbn.
  replace (seq (Mouter * Minner) Minner)
    with (Nat.add (Mouter * Minner) <$> seq 0 Minner)
    by (by rewrite fmap_add_seq, Nat.add_0_r).
  rewrite <- list_fmap_compose. apply map_ext. intros i. cbn. lia.
Qed.

Lemma EE_row_indices_outer Mouter Minner :
  Minner ≠ 0%nat →
  EE_row_indices false Mouter Minner
  = map (λ o, Z.of_nat (o * Minner)) (seq 0 Mouter).
Proof.
  intros Hne. unfold EE_row_indices, inner_row_indices.
  induction (seq 0 Mouter) as [|o l IH]; [done|]. cbn.
  by rewrite IH, decide_False.
Qed.

Lemma compute_M1_Ok M1_steps n m M1 :
  compute_M1 M1_steps n m = Ok M1 →
  m ≠ 0%nat ∧
  Z.of_nat M1 = (wrap (Z.of_nat M1_steps * Z.of_nat n) / Z.of_nat m)%Z ∧
  ((Z.of_nat M1_steps * Z.of_nat n < uint_modulus)%Z →
   M1 = (M1_steps * n / m)%nat).
Proof.
  unfold compute_M1. case_decide as Hm; [done|]. intros [= <-].
  split; [done|].
  assert (0 ≤ wrap (Z.of_nat M1_steps * Z.of_nat n) / Z.of_nat m)%Z.
  { apply Z.div_pos; [apply wrap_range|lia]. }
  split; [lia|]. intros Hfit. rewrite wrap_small by lia.
  rewrite <- Nat2Z.inj_mul, <- Nat2Z.inj_div. apply Nat2Z.id.
Qed.


(** ** The driver *)

(** X20: the check of [do_estimation] for Arc with the IFD sampler: with Arc
    among the structural parameters and the IFD sampler switched on,
    [do_estimation] returns -1; it never opens the dzA output file and writes
    nothing, and the only file it may have opened for writing is the theta
    output file, which it opens before the check; when all that precedes the
    check succeeds, the error it reports is the one about Arc with the IFD
    sampler. *)
Theorem do_estimation_rejects_Arc_with_IFD
    (dexp : double → double)
    (ifdSampler : digraph → effects → list double → nat → bool → double →
                  double → rng → outcome ifd_sampled)
    (arcCorrection : digraph → double)
    (mean_and_sd : list double → double * double)
    (dsqrt : double → double)
    (c : config) (tasknum : nat) (w : world) (r : rng) :
  useIFDsampler c = true →
  lists_Arc c = true →
  ∃ events,
    do_estimation dexp ifdSampler arcCorrection mean_and_sd dsqrt c tasknum
      w r = Ok ((-1)%Z, events) ∧
    wrote_output events = false ∧
    (opened_for_writing events = [] ∨
     opened_for_writing events =
       [task_filename (theta_file_prefix c) tasknum ".txt"%string]) ∧
    (loads_fine c tasknum w →
     events =
       [Fopen (arclist_filename c) "r"%string true;
        Fopen (task_filename (theta_file_prefix c) tasknum ".txt"%string)
          "w"%string true;
        Eprint ErrArcWithIFD]).
Proof.
  intros Hifd Harc. unfold do_estimation, loads_fine.
  rewrite Hifd, Harc. cbn [andb].
  destruct (readable w (arclist_filename c)) eqn:Hread; cbn [negb].
  2: { eexists. split; [done|]. repeat split; [by left|]. by intros [? _]. }
  destruct (match zone_filename c with
            | Some f => add_snowball_zones_to_digraph w
                          (load_digraph_from_arclist_file w) f
            | None => Some (load_digraph_from_arclist_file w)
            end) as [g|] eqn:Hzone.
  2: { eexists. split; [done|]. repeat split; [by left|].
       intros (_ & Hz & _). destruct (zone_filename c) as [f|]; [|done].
       destruct (Hz f eq_refl) as [? Hs]. congruence. }
  destruct (build_attr_indices_from_names w g) as [idx|] eqn:Hattr.
  2: { eexists. split; [done|]. repeat split; [by left|].
       intros (_ & _ & Ha & _). destruct (Ha g) as [? Hs]. congruence. }
  destruct (build_dyadic_indices_from_names w g) as [[df dn]|] eqn:Hdy.
  2: { eexists. split; [done|]. repeat split; [by left|].
       intros (_ & _ & _ & Hd & _). destruct (Hd g) as [? Hs]. congruence. }
  destruct (writable w (task_filename (theta_file_prefix c) tasknum ".txt"))
    eqn:Hwr; cbn [negb].
  2: { eexists. split; [done|]. repeat split; [by left|].
       intros (_ & _ & _ & _ & ?). congruence. }
  eexists. split; [done|]. repeat split; by right.
Qed.

(** ** The basic sampler: the rate and what a sweep keeps *)

Lemma sampler_loop_accepted dexp e theta pm uc fr m s s' :
  sampler_loop dexp e theta pm uc fr m s = Ok s' →
  (sw_accepted s ≤ sw_accepted s' ≤ sw_accepted s + m)%nat.
Proof.
  revert s. induction m as [|m IH]; intros s H; cbn in H.
  - simplify_eq. lia.
  - apply bind_Ok in H as ([s1 pr] & Hstep & H). apply IH in H.
    apply sampler_step_Ok in Hstep
      as (i & j & isDelete & r1 & u & r2 & _ & _ & _ & _ & _ & _ & _ & Hacc).
    cbn [fst] in H. cbn zeta in Hacc. destruct (u <? _)%D; lia.
Qed.

Lemma Qc_of_nat_pos (m : nat) : m ≠ 0%nat → 0 < Qc_of_Z (Z.of_nat m).
Proof.
  intros Hm. rewrite <- Z2Qc_inj_0.
  apply (proj1 (Z2Qc_inj_lt 0 (Z.of_nat m))). lia.
Qed.

Lemma Qc_pos_ne_0 (q : Qc) : 0 < q → q ≠ 0.
Proof. intros Hq ->. by apply (irreflexivity Qclt 0). Qed.

Lemma of_nat_ratio (a m : nat) :
  (a ≤ m)%nat → m ≠ 0%nat →
  ∃ q, (of_nat a / of_nat m)%D = Fin q ∧ 0 ≤ q ∧ q ≤ 1.
Proof.
  intros Ham Hm. unfold of_nat. cbn [ddiv].
  pose proof (Qc_of_nat_pos m Hm) as Hpos.
  rewrite decide_False by by apply Qc_pos_ne_0.
  eexists. split; [reflexivity|]. unfold Qcdiv. split.
  - apply Qcmult_nonneg_nonneg.
    + rewrite <- Z2Qc_inj_0. apply (proj1 (Z2Qc_inj_le 0 (Z.of_nat a))). lia.
    + apply Qclt_le_weak. by apply Qcinv_pos.
  - rewrite <- (Qcmult_inv_r (Qc_of_Z (Z.of_nat m))) by by apply Qc_pos_ne_0.
    apply Qcmult_le_mono_nonneg_r.
    + apply Qclt_le_weak. by apply Qcinv_pos.
    + apply (proj1 (Z2Qc_inj_le _ _)). lia.
Qed.


Lemma isArc_true g i j : isArc g i j = true ↔ (i, j) ∈ arcs g.
Proof. apply bool_decide_eq_true. Qed.

Lemma isArc_false g i j : isArc g i j = false ↔ (i, j) ∉ arcs g.
Proof. apply bool_decide_eq_false. Qed.

(** A turn of the plain sampler's loop: the dyad it proposes and the arc set
    it leaves. *)
Lemma sampler_step_plain dexp e theta pm fr s s' pr :
  sampler_step dexp e theta pm false fr s = Ok (s', pr) →
  let g := sw_graph s in
  pr_i pr ≠ pr_j pr ∧
  (pr_i pr < num_nodes g)%nat ∧ (pr_j pr < num_nodes g)%nat ∧
  pr_isDelete pr = isArc g (pr_i pr) (pr_j pr) ∧
  (fr = true → isArc g (pr_i pr) (pr_j pr) = false →
   isArc g (pr_j pr) (pr_i pr) = false) ∧
  num_nodes (sw_graph s') = num_nodes g ∧
  arcs (sw_graph s') =
    (if pr_accepted pr && pm then
       if pr_isDelete pr then arcs g ∖ {[ (pr_i pr, pr_j pr) ]}
       else {[ (pr_i pr, pr_j pr) ]} ∪ arcs g
     else arcs g).
Proof.
  intros H. pose proof H as Hstep. apply sampler_step_Ok in H
    as (i & j & isDelete & r1 & u & r2 & Hsel & Hu & Hpr & _ & Hg & _).
  unfold select_dyad in Hsel.
  apply select_unconditional_Ok in Hsel as (Hdel & Hne & Hi & Hj & Hfr).
  cbn zeta in *.
  destruct (u <? _)%D eqn:Hacc; subst pr; cbn [pr_i pr_j pr_isDelete pr_accepted];
    (split; [done|]); (split; [done|]); (split; [done|]); (split; [done|]);
    (split; [intros -> Harc; apply Hfr; [done|by rewrite Hdel]|]);
    (split; [rewrite Hg; by destruct pm, isDelete|]).
  - destruct pm; cbn [andb].
    + rewrite Hg. by destruct isDelete.
    + eapply sampler_step_arcs; [exact Hstep|by left].
  - cbn [andb]. eapply sampler_step_arcs; [exact Hstep|right].
    cbn. done.
Qed.

Lemma basicSampler_invariant dexp g e theta m pm uc fr r res
    (P : digraph → Prop) :
  (∀ s s' pr, P (sw_graph s) →
     sampler_step dexp e theta pm uc fr s = Ok (s', pr) → P (sw_graph s')) →
  P g →
  basicSampler dexp g e theta m pm uc fr r = Ok res → P (sa_graph res).
Proof.
  intros Hstep Hg H. apply basicSampler_Ok in H as (s & Hloop & ->). cbn.
  by eapply (sampler_loop_invariant _ _ _ _ _ _ (λ s, P (sw_graph s)))
    in Hloop.
Qed.

(** X2: with [forbidReciprocity] the plain sampler never proposes to add an
    arc whose reverse exists: a graph without reciprocated arcs stays so. *)
Theorem forbidReciprocity_keeps_no_reciprocated
    (dexp : double → double) (g : digraph) (e : effects)
    (theta : list double) (sampler_m : nat) (performMove : bool) (r : rng)
    (res : sampled) :
  basicSampler dexp g e theta sampler_m performMove false true r = Ok res →
  no_reciprocated g →
  no_reciprocated (sa_graph res).
Proof.
  intros H Hg. revert H. apply basicSampler_invariant; [|done].
  intros s s' pr HP Hstep. apply sampler_step_plain in Hstep
    as (Hne & _ & _ & Hdel & Hfr & _ & Harcs). cbn zeta in *.
  specialize (Hfr eq_refl). unfold no_reciprocated in *.
  intros a b Hab. specialize (HP a b Hab).
  rewrite isArc_true, isArc_false in *. rewrite Harcs.
  destruct (pr_accepted pr && performMove); [|done].
  rewrite Hdel. destruct (decide ((pr_i pr, pr_j pr) ∈ arcs (sw_graph s)))
    as [Hin|Hout].
  - rewrite (proj2 (isArc_true _ _ _) Hin).
    rewrite !elem_of_difference. intros [Hab' _] [Hba _]. by apply HP.
  - rewrite (proj2 (isArc_false _ _ _) Hout). specialize (Hfr Hout).
    rewrite !elem_of_union, !elem_of_singleton.
    intros [[= -> ->]|Hin] [[= ? ?]|Hin']; simplify_eq; try done.
    all: try apply isArc_false in Hfr; try done.
    all: by apply HP.
Qed.

(** X3: the plain sampler proposes dyads of two distinct nodes of the graph:
    a graph whose arcs join distinct nodes below [num_nodes] stays so. *)
Theorem basicSampler_keeps_arcs_in_range
    (dexp : double → double) (g : digraph) (e : effects)
    (theta : list double) (sampler_m : nat)
    (performMove forbidReciprocity : bool) (r : rng) (res : sampled) :
  basicSampler dexp g e theta sampler_m performMove false forbidReciprocity r
  = Ok res →
  arcs_in_range g →
  num_nodes (sa_graph res) = num_nodes g ∧ arcs_in_range (sa_graph res).
Proof.
  intros H Hg. revert H.
  apply (basicSampler_invariant _ _ _ _ _ _ _ _ _ _
           (λ g', num_nodes g' = num_nodes g ∧ arcs_in_range g')); [|done].
  intros s s' pr [Hn HP] Hstep. apply sampler_step_plain in Hstep
    as (Hne & Hi & Hj & Hdel & _ & Hn' & Harcs). cbn zeta in *.
  split; [congruence|]. unfold arcs_in_range in *.
  intros a b. rewrite Hn', isArc_true, Harcs. specialize (HP a b).
  rewrite isArc_true in HP.
  destruct (pr_accepted pr && performMove); [|done].
  destruct (pr_isDelete pr);
    [rewrite elem_of_difference; intros [Hin _]; auto|].
  rewrite elem_of_union, elem_of_singleton. intros [[= -> ->]|Hin]; auto.
Qed.

(** X4: under conditional estimation [isDelete] keeps its initial value: no
    proposal is taken as a delete. [delChangeStats] is zero on return and no
    arc is removed. *)
Theorem conditional_estimation_never_deletes
    (dexp : double → double) (g : digraph) (e : effects)
    (theta : list double) (sampler_m : nat)
    (performMove forbidReciprocity : bool) (r : rng) (res : sampled) :
  basicSampler dexp g e theta sampler_m performMove true forbidReciprocity r
  = Ok res →
  sa_del res = replicate (n_params e) dzero ∧
  arcs g ⊆ arcs (sa_graph res).
Proof.
  intros H. apply basicSampler_Ok in H as (sf & Hloop & ->). cbn.
  eapply (sampler_loop_invariant _ _ _ _ _ _
            (λ s, sw_del s = replicate (n_params e) dzero ∧
                  arcs g ⊆ arcs (sw_graph s))) in Hloop; [done| |done].
  intros s s' pr [Hdel Harcs] Hstep.
  pose proof (sampler_step_conditional _ _ _ _ _ _ _ _ Hstep)
    as (_ & _ & _ & _ & _ & _ & _ & Hnd & Hg).
  apply sampler_step_Ok in Hstep
    as (i & j & isDelete & r1 & u & r2 & _ & _ & -> & _ & _ & _ & Hd & _).
  cbn in Hnd. subst isDelete. rewrite andb_false_r in Hd. split; [congruence|].
  destruct Hg as [-> | ->]; [done|]. cbn.
  intros a Ha. apply elem_of_union. right. by apply Harcs.
Qed.

(** ** Runs that do not return *)

Lemma bind_fails_with {A B : Type} f (m : outcome A) (k : A → outcome B) :
  fails_with f m = false →
  (∀ a, m = Ok a → fails_with f (k a) = false) →
  fails_with f (m ≫= k) = false.
Proof. destruct m; cbn; auto. Qed.

Lemma int_urand_fails f n r :
  f ≠ FNoDraw → fails_with f (int_urand n r) = false.
Proof.
  intros Hf. unfold int_urand. destruct (ints r); [by destruct f|].
  case_decide; by destruct f.
Qed.

Lemma urand_fails f r : f ≠ FNoDraw → fails_with f (urand r) = false.
Proof.
  intros Hf. unfold urand. destruct (unifs r); [by destruct f|].
  case_decide; by destruct f.
Qed.

Lemma draw_other_fails f pick n i fuel r :
  f ≠ FNoDraw → fails_with f (draw_other pick n i fuel r) = false.
Proof.
  intros Hf. revert r. induction fuel as [|fuel IH]; intros r; cbn.
  - by destruct f.
  - apply bind_fails_with; [by apply int_urand_fails|].
    intros [x r'] _. case_decide; [apply IH|by destruct f].
Qed.

Lemma select_unconditional_fails f g fr fuel r :
  f ≠ FNoDraw → fails_with f (select_unconditional g fr fuel r) = false.
Proof.
  intros Hf. revert r. induction fuel as [|fuel IH]; intros r;
    cbn -[draw_other].
  - by destruct f.
  - apply bind_fails_with; [by apply int_urand_fails|]. intros [i r1] _.
    apply bind_fails_with; [by apply draw_other_fails|]. intros [j r2] _.
    destruct (_ && _); [apply IH|by destruct f].
Qed.

Lemma select_conditional_fails g fuel r :
  snowball_sample g →
  fails_with FAssert (select_conditional g fuel r) = false.
Proof.
  intros [Hinner Harcs]. revert r. induction fuel as [|fuel IH]; intros r;
    cbn [select_conditional]; [done|].
  apply bind_fails_with; [by apply int_urand_fails|]. intros [x r1] Hx.
  apply int_urand_Ok in Hx as (Hx & _).
  apply bind_fails_with; [by apply draw_other_fails|]. intros [j r2] Hj.
  apply draw_other_Ok in Hj as (_ & y & Hy & ->).
  unfold num_inner_nodes in *.
  set (i := nth x (inner_nodes g) 0%nat).
  set (j := nth y (inner_nodes g) 0%nat).
  assert (i ∈ inner_nodes g ∧ j ∈ inner_nodes g) as [Hi Hj]
    by (split; apply list_elem_of_In, nth_In; done).
  rewrite (bool_decide_eq_true_2 (zone_of g i < max_zone g)%nat)
    by by apply Hinner.
  rewrite (bool_decide_eq_true_2 (zone_of g j < max_zone g)%nat)
    by by apply Hinner.
  cbn [andb assert mbind outcome_bind].
  destruct (isArcIgnoreDirection g _ _) eqn:Harc.
  - rewrite (bool_decide_eq_true_2 (zone_distance g i j ≤ 1)%Z)
      by by apply Harcs.
    cbn [orb assert mbind outcome_bind]. destruct (_ || _); [apply IH|done].
  - rewrite orb_true_r. cbn [assert mbind outcome_bind].
    destruct (_ || _); [apply IH|done].
Qed.

Lemma sampler_loop_fails dexp e theta pm uc fr f (P : digraph → Prop) :
  (∀ s, P (sw_graph s) →
     fails_with f (sampler_step dexp e theta pm uc fr s) = false) →
  (∀ s s' pr, P (sw_graph s) →
     sampler_step dexp e theta pm uc fr s = Ok (s', pr) → P (sw_graph s')) →
  ∀ m s, P (sw_graph s) →
    fails_with f (sampler_loop dexp e theta pm uc fr m s) = false.
Proof.
  intros Hfail Hkeep. induction m as [|m IH]; intros s HP; cbn; [by destruct f|].
  apply bind_fails_with; [by apply Hfail|].
  intros [s1 pr] Hstep. apply IH. by eapply Hkeep.
Qed.

Lemma sampler_step_plain_fails dexp e theta pm fr f s :
  f ≠ FNoDraw →
  fails_with f (sampler_step dexp e theta pm false fr s) = false.
Proof.
  intros Hf. unfold sampler_step, select_dyad.
  apply bind_fails_with; [by apply select_unconditional_fails|].
  intros [[[i j] d] r1] _.
  apply bind_fails_with; [by apply urand_fails|]. intros [u r2] _.
  destruct (u <? _)%D; by destruct f.
Qed.

Lemma basicSampler_plain_fails dexp g e theta m pm fr r f :
  f ≠ FNoDraw →
  fails_with f (basicSampler dexp g e theta m pm false fr r) = false.
Proof.
  intros Hf. unfold basicSampler.
  apply bind_fails_with; [|intros; by destruct f].
  apply (sampler_loop_fails _ _ _ _ _ _ _ (λ _, True)); try done.
  intros s _. by apply sampler_step_plain_fails.
Qed.

Lemma select_conditional_never_divides g fuel r :
  fails_with FDivide (select_conditional g fuel r) = false.
Proof.
  revert r. induction fuel as [|fuel IH]; intros r;
    cbn [select_conditional]; [done|].
  apply bind_fails_with; [by apply int_urand_fails|]. intros [x r1] _.
  apply bind_fails_with; [by apply draw_other_fails|]. intros [j r2] _.
  apply bind_fails_with; [unfold assert; by destruct (_ && _)|]. intros _ _.
  apply bind_fails_with; [unfold assert; by destruct (_ || _)|]. intros _ _.
  destruct (_ || _); [apply IH|done].
Qed.

Lemma basicSampler_never_divides dexp g e theta m pm uc fr r :
  fails_with FDivide (basicSampler dexp g e theta m pm uc fr r) = false.
Proof.
  destruct uc; [|by apply basicSampler_plain_fails].
  unfold basicSampler. apply bind_fails_with; [|done].
  apply (sampler_loop_fails _ _ _ _ _ _ _ (λ _, True)); try done.
  intros s _. unfold sampler_step, select_dyad.
  apply bind_fails_with.
  - apply bind_fails_with; [unfold assert; by destruct (negb fr)|].
    intros _ _. apply bind_fails_with;
      [apply select_conditional_never_divides|].
    by intros [[i j] r'] _.
  - intros [[[i j] d] r1] _.
    apply bind_fails_with; [by apply urand_fails|]. intros [u r2] _.
    by destruct (u <? _)%D.
Qed.

(** X5: the assertions of the sampler guard conditional estimation only: the
    plain sampler fails none, and no call divides by zero in the integers;
    with [forbidReciprocity], which conditional estimation does not
    implement, the first proposal fails the assertion, whatever the graph and
    the generator, and only a call without proposals returns. *)
Theorem basicSampler_assertions
    (dexp : double → double) (g : digraph) (e : effects)
    (theta : list double) (sampler_m : nat)
    (performMove useConditionalEstimation forbidReciprocity : bool)
    (r : rng) :
  fails_with FAssert
    (basicSampler dexp g e theta sampler_m performMove false
       forbidReciprocity r) = false ∧
  fails_with FDivide
    (basicSampler dexp g e theta sampler_m performMove
       useConditionalEstimation forbidReciprocity r) = false ∧
  basicSampler dexp g e theta (S sampler_m) performMove true true r
  = AssertFailed ∧
  basicSampler dexp g e theta 0 performMove true true r
  = Ok (mk_sampled g NaN (replicate (n_params e) dzero)
          (replicate (n_params e) dzero) r).
Proof.
  split; [by apply basicSampler_plain_fails|].
  split; [by apply basicSampler_never_divides|]. done.
Qed.

Lemma snowball_sample_insertArc g i j :
  snowball_sample g → (zone_distance g i j ≤ 1)%Z →
  snowball_sample (insertArc g i j).
Proof.
  intros [Hinner Harcs] Hd. split; [done|]. intros a b.
  unfold isArcIgnoreDirection.
  destruct (decide ((a, b) = (i, j))) as [[= -> ->]|Hab]; [done|].
  destruct (decide ((b, a) = (i, j))) as [[= -> ->]|Hba].
  - intros _. unfold zone_distance, zone_of in *. cbn [zone insertArc]. lia.
  - rewrite !isArc_insertArc_ne by done. apply Harcs.
Qed.

(** X6: on a snowball sample whose inner nodes are in the zones below the
    largest and whose arcs skip no zone, the two assertions of the selection
    under conditional estimation hold at every proposal: the sampler adds
    arcs between zones at most one apart only. *)
Theorem conditional_estimation_assertions_hold
    (dexp : double → double) (g : digraph) (e : effects)
    (theta : list double) (sampler_m : nat) (performMove : bool) (r : rng) :
  snowball_sample g →
  fails_with FAssert
    (basicSampler dexp g e theta sampler_m performMove true false r) = false ∧
  (∀ res,
     basicSampler dexp g e theta sampler_m performMove true false r = Ok res →
     snowball_sample (sa_graph res)).
Proof.
  intros Hg.
  assert (∀ s s' pr, snowball_sample (sw_graph s) →
            sampler_step dexp e theta performMove true false s = Ok (s', pr) →
            snowball_sample (sw_graph s')) as Hkeep.
  { intros s s' pr HP Hstep. apply sampler_step_conditional in Hstep
      as (_ & _ & _ & _ & _ & Hd & _ & _ & [-> | ->]); [done|].
    by apply snowball_sample_insertArc. }
  split.
  - unfold basicSampler. apply bind_fails_with; [|done].
    apply (sampler_loop_fails _ _ _ _ _ _ _ snowball_sample); try done.
    intros s HP. unfold sampler_step, select_dyad.
    cbn [negb assert mbind outcome_bind].
    apply bind_fails_with.
    + apply bind_fails_with; [by apply select_conditional_fails|].
      by intros [[i j] r'] _.
    + intros [[[i j] d] r1] _.
      apply bind_fails_with; [by apply urand_fails|]. intros [u r2] _.
      by destruct (u <? _)%D.
  - intros res. by apply basicSampler_invariant.
Qed.

(** ** The change statistics add up *)

Lemma accumulate_lookup acc cs k a c :
  acc !! k = Some a → cs !! k = Some c →
  accumulate acc cs !! k = Some (a + c)%D.
Proof.
  intros Ha Hc. unfold accumulate. by rewrite lookup_zip_with, Ha, Hc.
Qed.

Lemma insert_remove_arc (A : gset (nat * nat)) a :
  a ∈ A → {[ a ]} ∪ A ∖ {[ a ]} = A.
Proof.
  intros Ha. apply set_eq. intros b.
  rewrite elem_of_union, elem_of_difference, elem_of_singleton.
  destruct (decide (b = a)) as [->|]; tauto.
Qed.

Lemma sampler_loop_telescope dexp e theta fr k z m s s' a d :
  change_statistic_of e k z →
  sampler_loop dexp e theta true false fr m s = Ok s' →
  sw_add s !! k = Some (Fin a) → sw_del s !! k = Some (Fin d) →
  ∃ a' d',
    sw_add s' !! k = Some (Fin a') ∧ sw_del s' !! k = Some (Fin d') ∧
    a' - d' = a - d + (z (arcs (sw_graph s')) - z (arcs (sw_graph s))).
Proof.
  intros Hz Hloop Ha0 Hd0.
  eapply (sampler_loop_invariant _ _ _ _ _ _
            (λ s1, ∃ a' d', sw_add s1 !! k = Some (Fin a') ∧
                     sw_del s1 !! k = Some (Fin d') ∧
                     a' - d' =
                       a - d + (z (arcs (sw_graph s1)) - z (arcs (sw_graph s)))))
    in Hloop; [done| |].
  - clear s' Hloop. intros s1 s' pr (a' & d' & Ha & Hd & Heq) Hstep.
    pose proof (sampler_step_plain _ _ _ _ _ _ _ _ Hstep)
      as (_ & _ & _ & Hdel & _ & _ & Harcs).
    apply sampler_step_Ok in Hstep
      as (i & j & isDelete & r1 & u & r2 & _ & _ & -> & _ & _ & Hadd' & Hdel'
          & _).
    cbn in Hdel, Harcs. cbn zeta in Hadd', Hdel'.
    rewrite andb_true_r in Harcs.
    destruct (u <? _)%D; cbn in Hadd', Hdel'; rewrite Hadd', Hdel', Harcs;
      [|by exists a', d'].
    assert (a' = a - d + (z (arcs (sw_graph s1)) - z (arcs (sw_graph s))) + d')
      as Ha' by (rewrite <- Heq; ring).
    destruct isDelete; symmetry in Hdel; cbn [negb].
    + pose proof (Hz (removeArc (sw_graph s1) i j) i j) as Hc.
      rewrite isArc_false in Hc. cbn [removeArc arcs] in Hc.
      rewrite insert_remove_arc in Hc by by apply isArc_true.
      assert ((i, j) ∉ arcs (sw_graph s1) ∖ {[(i, j)]}) as Hout
        by (rewrite elem_of_difference, elem_of_singleton; tauto).
      rewrite (accumulate_lookup _ _ _ _ _ Hd (Hc Hout)). cbn [dadd negb].
      eexists a', _. split; [done|]. split; [done|]. rewrite Ha'. ring.
    + rewrite (accumulate_lookup _ _ _ _ _ Ha (Hz _ _ _ Hdel)).
      cbn [dadd negb].
      eexists _, d'. split; [done|]. split; [done|]. rewrite Ha'. ring.
  - exists a, d. repeat split; try done. ring.
Qed.


Lemma EE_inner_invariant dexp ifdSampler uc fr e m ACA oas ifd K acv
    (P : EE_state → Prop) :
  (∀ tinner s s', P s →
     EE_step dexp ifdSampler uc fr e m ACA oas ifd K acv tinner s = Ok s' →
     P s') →
  ∀ count tinner tm s s' tm', P s →
    EE_inner dexp ifdSampler uc fr e m ACA oas ifd K acv count tinner tm s
    = Ok (s', tm') → P s'.
Proof.
  intros Hstep. induction count as [|count IH];
    intros tinner tm s s' tm' HP H; cbn in H.
  - by simplify_eq.
  - apply bind_Ok in H as (s1 & H1 & H). eauto.
Qed.

Lemma EE_outer_invariant dexp ifdSampler mean_and_sd dsqrt uc fr e Minner m
    ACA compC oas ifd K acv (P : EE_state → Prop) :
  (∀ tinner s s', P s →
     EE_step dexp ifdSampler uc fr e m ACA oas ifd K acv tinner s = Ok s' →
     P s') →
  (∀ tm s s', P s → EE_adjust mean_and_sd dsqrt compC tm s = Ok s' → P s') →
  ∀ count s s', P s →
    EE_outer dexp ifdSampler mean_and_sd dsqrt uc fr e Minner m ACA compC oas
      ifd K acv count s = Ok s' → P s'.
Proof.
  intros Hstep Hadj. induction count as [|count IH]; intros s s' HP H;
    cbn in H.
  - by simplify_eq.
  - apply bind_Ok in H as ([s1 tm] & Hin & H).
    apply bind_Ok in H as (s2 & Ha & H).
    eapply IH; [|exact H]. eapply Hadj; [|exact Ha].
    eapply EE_inner_invariant; [exact Hstep| |exact Hin]. done.
Qed.

Lemma EE_adjust_Ok mean_and_sd dsqrt compC tm s s' :
  EE_adjust mean_and_sd dsqrt compC tm s = Ok s' →
  ∃ D0, adjust_all mean_and_sd dsqrt compC tm (es_D0 s) = Ok D0 ∧
    s' = mk_EE_state (es_graph s) (es_theta s) D0 (es_dzA s)
           (es_ifd_aux_param s) (es_t s) (es_theta_rows s) (es_dzA_rows s)
           (es_rng s).
Proof.
  unfold EE_adjust. intros H. apply bind_Ok in H as (D0 & HD0 & H).
  exists D0. by simplify_eq.
Qed.

Lemma run_sampler_basic_Ok dexp ifdSampler uc fr g e theta m pm K acv aux r o :
  run_sampler dexp ifdSampler uc fr false g e theta m pm K acv aux r = Ok o →
  ∃ res, basicSampler dexp g e theta m pm uc fr r = Ok res ∧
    o = mk_drawn (sa_graph res) (sa_rate res) (sa_add res) (sa_del res) [] []
          aux (sa_rng res).
Proof.
  unfold run_sampler. intros H. apply bind_Ok in H as (res & Hres & H).
  exists res. by simplify_eq.
Qed.

Lemma EE_step_Ok dexp ifdSampler uc fr e m ACA oas ifd K acv tinner s s' :
  EE_step dexp ifdSampler uc fr e m ACA oas ifd K acv tinner s = Ok s' →
  ∃ o,
    run_sampler dexp ifdSampler uc fr ifd (es_graph s) e (es_theta s) m true
      K acv (es_ifd_aux_param s) (es_rng s) = Ok o ∧
    es_graph s' = dr_graph o ∧
    es_dzA s' =
      zip_with (λ z ad, EE_dzA_next z ad.1 ad.2) (es_dzA s)
        (zip (dr_add o) (dr_del o)) ∧
    es_theta s' =
      zip_with (λ th dz, th + EE_theta_step ACA dz.1 dz.2)%D (es_theta s)
        (zip (es_D0 s) (es_dzA s')) ∧
    es_D0 s' = es_D0 s ∧
    es_rng s' = dr_rng o.
Proof.
  unfold EE_step. intros H. apply bind_Ok in H as (o & Ho & H).
  exists o. by simplify_eq.
Qed.


Lemma total_of_zero_theta theta isDelete cs :
  Forall (λ th, th = dzero) theta →
  Forall (λ c, is_finite c = true) cs →
  total_of theta isDelete cs = dzero.
Proof.
  intros Hth Hcs. rewrite total_of_spec. unfold total_spec.
  revert cs Hcs. induction Hth as [|th theta -> _ IH]; intros cs Hcs;
    [done|].
  destruct Hcs as [|c cs Hc Hcs]; [done|]. cbn [zip_with foldr].
  rewrite IH by done. rewrite dadd_0_r.
  destruct c as [q| | |]; try discriminate Hc.
  unfold dzero. destruct isDelete; cbn; f_equal; ring.
Qed.

Lemma sampler_loop_all_accepted dexp e theta pm uc fr m s s' :
  (∀ s1 s2 pr, sampler_step dexp e theta pm uc fr s1 = Ok (s2, pr) →
     pr_accepted pr = true) →
  sampler_loop dexp e theta pm uc fr m s = Ok s' →
  sw_accepted s' = (sw_accepted s + m)%nat.
Proof.
  intros Hall. revert s. induction m as [|m IH]; intros s H; cbn in H.
  - simplify_eq. lia.
  - apply bind_Ok in H as ([s1 pr] & Hstep & H). apply IH in H.
    pose proof (Hall _ _ _ Hstep) as Hacc.
    apply sampler_step_Ok in Hstep
      as (i & j & isDelete & r1 & u & r2 & _ & _ & -> & _ & _ & _ & _ & Hn).
    cbn in Hacc. cbn zeta in Hn. rewrite Hacc in Hn. cbn [fst] in H. lia.
Qed.

Lemma of_nat_ratio_same (m : nat) :
  m ≠ 0%nat → (of_nat m / of_nat m)%D = Fin 1.
Proof.
  intros Hm. unfold of_nat. cbn [ddiv].
  pose proof (Qc_pos_ne_0 _ (Qc_of_nat_pos m Hm)) as Hne.
  rewrite decide_False by done. f_equal. unfold Qcdiv.
  by apply Qcmult_inv_r.
Qed.

(** X9: at [theta = 0], where Algorithm S starts, the sum [total] is 0 for
    finite change statistics and [exp(total)] is 1, above every draw from the
    open unit interval: every proposal is accepted and the acceptance rate is
    1. *)
Theorem basicSampler_accepts_all_at_zero_theta
    (dexp : double → double) (g : digraph) (e : effects)
    (theta : list double) (sampler_m : nat)
    (performMove useConditionalEstimation forbidReciprocity : bool) (r : rng)
    (res : sampled) :
  dexp dzero = Fin 1 →
  finite_effects e →
  Forall (λ th, th = dzero) theta →
  sampler_m ≠ 0%nat →
  basicSampler dexp g e theta sampler_m performMove useConditionalEstimation
    forbidReciprocity r = Ok res →
  sa_rate res = Fin 1 ∧
  (∀ s s' pr,
     sampler_step dexp e theta performMove useConditionalEstimation
       forbidReciprocity s = Ok (s', pr) →
     pr_total pr = dzero ∧ pr_accepted pr = true).
Proof.
  intros Hexp He Hth Hm H.
  assert (∀ s s' pr,
     sampler_step dexp e theta performMove useConditionalEstimation
       forbidReciprocity s = Ok (s', pr) →
     pr_total pr = dzero ∧ pr_accepted pr = true) as Hall.
  { intros s s' pr Hstep. apply sampler_step_Ok in Hstep
      as (i & j & isDelete & r1 & u & r2 & _ & Hu & -> & _).
    apply urand_Ok in Hu as (q & -> & _ & Hq & _). cbn.
    rewrite total_of_zero_theta by (done || apply He).
    split; [done|]. rewrite Hexp. cbn. by apply bool_decide_eq_true. }
  split; [|done].
  apply basicSampler_Ok in H as (sf & Hloop & ->). cbn.
  apply sampler_loop_all_accepted in Hloop; [|intros; by eapply Hall].
  cbn in Hloop. rewrite Hloop. by apply of_nat_ratio_same.
Qed.

(** ** Algorithm S and Algorithm EE *)

Lemma basicSampler_dry_run_arcs dexp g e theta m uc fr r res :
  basicSampler dexp g e theta m false uc fr r = Ok res →
  arcs (sa_graph res) = arcs g.
Proof.
  apply (basicSampler_invariant _ _ _ _ _ _ _ _ _ _
           (λ g', arcs g' = arcs g)); [|done].
  intros s s' pr HP Hstep. rewrite <- HP.
  eapply sampler_step_arcs; [exact Hstep|by left].
Qed.

Lemma S_step_Ok dexp ifdSampler uc fr e M1 m ACA ifd K acv t s s' :
  S_step dexp ifdSampler uc fr e M1 m ACA ifd K acv t s = Ok s' →
  ∃ o,
    run_sampler dexp ifdSampler uc fr ifd (ss_graph s) e (ss_theta s) m false
      K acv (ss_ifd_aux_param s) (ss_rng s) = Ok o ∧
    ss_graph s' = dr_graph o ∧
    ss_D0 s' =
      zip_with (λ d0 ad, S_D0_next d0 ad.1 ad.2) (ss_D0 s)
        (zip (dr_add o) (dr_del o)) ∧
    ss_theta s' =
      zip_with (λ th ad, th + S_theta_step ACA ad.1 ad.2)%D (ss_theta s)
        (zip (dr_add o) (dr_del o)) ∧
    ss_rows s' =
      ss_rows s ++
      [mk_row (as_signed (wrap (Z.of_nat t - Z.of_nat M1)))
         (dr_arc_column o ++ ss_theta s' ++ [dr_rate o])] ∧
    ss_rng s' = dr_rng o.
Proof.
  unfold S_step. intros H. apply bind_Ok in H as (o & Ho & H).
  exists o. by simplify_eq.
Qed.

(** X10: Algorithm S runs the basic sampler without performing the moves:
    it returns the graph with the arcs it was given. *)
Theorem algorithm_S_leaves_arcs
    (dexp : double → double)
    (ifdSampler : digraph → effects → list double → nat → bool → double →
                  double → rng → outcome ifd_sampled)
    (arcCorrection : digraph → double)
    (useConditionalEstimation forbidReciprocity : bool)
    (g : digraph) (e : effects) (M1 sampler_m : nat) (ACA : double)
    (ifd_K : double) (r : rng) (res : S_result) :
  algorithm_S dexp ifdSampler arcCorrection useConditionalEstimation
    forbidReciprocity g e M1 sampler_m ACA false ifd_K r = Ok res →
  arcs (S_graph res) = arcs g ∧
  ∀ i j, isArc (S_graph res) i j = isArc g i j.
Proof.
  intros H. unfold algorithm_S in H.
  apply bind_Ok in H as (sf & Hloop & H). simplify_eq. cbn.
  assert (arcs (ss_graph sf) = arcs g) as Harcs.
  { eapply (S_loop_invariant _ _ _ _ _ _ _ _ _ _ _
              (λ s, arcs (ss_graph s) = arcs g)) in Hloop; [done| |done].
    intros t s s' HP Hstep. apply S_step_Ok in Hstep as (o & Hrun & -> & _).
    apply run_sampler_basic_Ok in Hrun as (sres & Hres & ->). cbn.
    rewrite <- HP. by eapply basicSampler_dry_run_arcs. }
  split; [done|]. intros i j. unfold isArc. by rewrite Harcs.
Qed.

Lemma Qc_square_pos (q : Qc) : q ≠ 0 → 0 < q * q.
Proof.
  intros Hq. destruct (Qclt_le_dec q 0) as [Hlt|Hle].
  - replace (q * q) with ((- q) * (- q)) by ring.
    assert (0 < - q).
    { apply (Qcplus_lt_mono_r _ _ q). by ring_simplify. }
    by apply Qcmult_pos_pos.
  - assert (0 < q) by (destruct (Qcle_lt_or_eq _ _ Hle); [done|congruence]).
    by apply Qcmult_pos_pos.
Qed.

Lemma Qc_neg_of_opp_pos (q : Qc) : 0 < q → - q < 0.
Proof. intros Hq. apply (Qcplus_lt_mono_r _ _ q). by ring_simplify. Qed.


Lemma Qc_lt_sub (a b : Qc) : a < b ↔ 0 < b + - a.
Proof.
  rewrite (Qcplus_lt_mono_r a b (- a)).
  replace (a + - a) with (Q2Qc 0) by ring. done.
Qed.

Lemma Qc_gt_sub (a b : Qc) : b < a ↔ b + - a < 0.
Proof.
  rewrite (Qcplus_lt_mono_r b a (- a)).
  replace (a + - a) with (Q2Qc 0) by ring. done.
Qed.


Lemma floored_magnitude_pos m : 0 < floored_magnitude m.
Proof.
  unfold floored_magnitude. cbv zeta.
  destruct (decide (_ < Q2Qc (1 # 10))) as [|Hge]; [done|].
  apply Qcnot_lt_le in Hge. eapply Qclt_le_trans; [|exact Hge]. done.
Qed.

(** X13: the adjustment of [D0[l]] between outer iterations, for a finite
    mean [m] and standard deviation [s] of the values of [theta[l]]: a
    negative [s] fails the assertion, an [s] of at most [1e-10] leaves
    [D0[l]] as it is, and a larger one multiplies it by the square root of
    [compC * max(|m|, 0.1) / s]: no division by zero. *)
Theorem adjust_D0_factor
    (mean_and_sd : list double → double * double) (dsqrt : double → double)
    (c m s : Qc) (thetas : list double) (d0 : double) :
  mean_and_sd thetas = (Fin m, Fin s) →
  (s < 0 → adjust_D0 mean_and_sd dsqrt (Fin c) thetas d0 = AssertFailed) ∧
  (0 ≤ s → s ≤ Q2Qc (1 # 10000000000) →
   adjust_D0 mean_and_sd dsqrt (Fin c) thetas d0 = Ok d0) ∧
  (Q2Qc (1 # 10000000000) < s →
   adjust_D0 mean_and_sd dsqrt (Fin c) thetas d0
   = Ok (d0 * dsqrt (Fin (c * floored_magnitude m / s)))%D).
Proof.
  intros Hms. unfold adjust_D0. rewrite Hms.
  unfold min_theta_mean, min_theta_sd, dzero. cbn [dleb dltb dabs].
  split; [|split].
  - intros Hs.
    by rewrite (bool_decide_eq_false_2 (0 ≤ s)) by by apply Qclt_not_le.
  - intros H0 Hs. rewrite (bool_decide_eq_true_2 (0 ≤ s)) by done.
    cbn [assert mbind outcome_bind].
    by rewrite bool_decide_eq_false_2 by by apply Qcle_not_lt.
  - intros Hs.
    assert (0 < s) as Hpos by (etrans; [|exact Hs]; done).
    rewrite (bool_decide_eq_true_2 (0 ≤ s)) by by apply Qclt_le_weak.
    cbn [assert mbind outcome_bind].
    rewrite (bool_decide_eq_true_2 _ Hs).
    pose proof (floored_magnitude_pos m) as Hmag.
    assert (dabs (if (if decide (m < 0) then Fin (- m) else Fin m)
                       <? Fin (Q2Qc (1 # 10))
                  then Fin (Q2Qc (1 # 10)) else Fin m)%D
            = Fin (floored_magnitude m)) as ->.
    { unfold floored_magnitude in *. cbv zeta in *.
      destruct (decide (m < 0)) as [Hneg|Hnn]; rewrite dltb_Fin.
      - destruct (decide (- m < Q2Qc (1 # 10))) as [Hlt|Hge].
        + rewrite (bool_decide_eq_true_2 _ Hlt). done.
        + rewrite (bool_decide_eq_false_2 _ Hge). cbn [dabs].
          by rewrite decide_True.
      - destruct (decide (m < Q2Qc (1 # 10))) as [Hlt|Hge].
        + rewrite (bool_decide_eq_true_2 _ Hlt). done.
        + rewrite (bool_decide_eq_false_2 _ Hge). cbn [dabs].
          by rewrite decide_False. }
    cbn [ddiv]. rewrite decide_False by by apply Qc_pos_ne_0.
    assert (0 < s / floored_magnitude m) as Hq.
    { unfold Qcdiv. apply Qcmult_pos_pos; [done|by apply Qcinv_pos]. }
    rewrite decide_False by by apply Qc_pos_ne_0.
    do 4 f_equal. field. split; by apply Qc_pos_ne_0.
Qed.

(** ** The lines of the output files *)

Lemma changestats_of_length e g i j :
  length (attr_indices e) = n_attr e →
  length (changestats_of e g i j) = n_params e.
Proof.
  intros Hidx. unfold changestats_of, n_params, n_attr, n_dyadic in *.
  rewrite !length_app, !length_map, length_zip_with. lia.
Qed.

Lemma accumulate_length acc cs :
  length (accumulate acc cs) = (length acc `min` length cs)%nat.
Proof. apply length_zip_with. Qed.

Lemma basicSampler_lengths dexp g e theta m pm uc fr r res :
  length (attr_indices e) = n_attr e →
  basicSampler dexp g e theta m pm uc fr r = Ok res →
  length (sa_add res) = n_params e ∧ length (sa_del res) = n_params e.
Proof.
  intros Hidx H. apply basicSampler_Ok in H as (sf & Hloop & ->). cbn.
  eapply (sampler_loop_invariant _ _ _ _ _ _
            (λ s, length (sw_add s) = n_params e ∧
                  length (sw_del s) = n_params e)) in Hloop; [done| |].
  - intros s s' pr [Ha Hd] Hstep. apply sampler_step_Ok in Hstep
      as (i & j & isDelete & r1 & u & r2 & _ & _ & _ & _ & _ & -> & -> & _).
    cbn zeta. split; destruct (_ && _); try done;
      rewrite accumulate_length, changestats_of_length by done; lia.
  - cbn. by rewrite !length_replicate.
Qed.

Lemma mapM_outcome_length {A B : Type} (f : A → outcome B) l k :
  mapM f l = Ok k → length k = length l.
Proof.
  revert k. induction l as [|x l IH]; intros k H; cbn in H.
  - injection H as <-. done.
  - apply bind_Ok in H as (y & _ & H). apply bind_Ok in H as (k' & Hk' & H).
    injection H as <-. cbn. f_equal. by apply IH.
Qed.

Lemma adjust_all_length mean_and_sd dsqrt compC tm D0 D0' :
  adjust_all mean_and_sd dsqrt compC tm D0 = Ok D0' →
  length D0' = length D0.
Proof.
  unfold adjust_all. intros H%mapM_outcome_length.
  by rewrite length_imap in H.
Qed.

Lemma EE_step_lines dexp ifdSampler uc fr e m ACA oas ifd K acv tinner
    s s' :
  EE_step dexp ifdSampler uc fr e m ACA oas ifd K acv tinner s = Ok s' →
  ∃ o,
    run_sampler dexp ifdSampler uc fr ifd (es_graph s) e (es_theta s) m true
      K acv (es_ifd_aux_param s) (es_rng s) = Ok o ∧
    es_theta_rows s' =
      es_theta_rows s ++
      (if oas || bool_decide (tinner = 0%nat)
       then [mk_row (es_t s) (dr_arc_column o ++ es_theta s' ++ [dr_rate o])]
       else []) ∧
    es_dzA_rows s' =
      es_dzA_rows s ++
      (if oas || bool_decide (tinner = 0%nat)
       then [mk_row (es_t s) (dr_dzArc_column o ++ es_dzA s')]
       else []).
Proof.
  unfold EE_step. intros H. apply bind_Ok in H as (o & Ho & H).
  exists o. simplify_eq. cbn.
  destruct (oas || _); by rewrite ?app_nil_r.
Qed.

Lemma EE_inner_line_count dexp ifdSampler uc fr e m ACA oas ifd K acv
    count tinner tm s s' tm' :
  EE_inner dexp ifdSampler uc fr e m ACA oas ifd K acv count tinner tm s
  = Ok (s', tm') →
  length (es_theta_rows s') =
    (length (es_theta_rows s) +
     (if oas then count
      else if decide (tinner = 0%nat ∧ count ≠ 0%nat) then 1 else 0))%nat.
Proof.
  revert tinner tm s. induction count as [|count IH]; intros tinner tm s H;
    cbn in H.
  - simplify_eq. destruct oas; [lia|]. rewrite decide_False by tauto. lia.
  - apply bind_Ok in H as (s1 & Hstep & H). apply IH in H. rewrite H.
    apply EE_step_lines in Hstep as (o & _ & -> & _).
    rewrite length_app. destruct oas; cbn [orb length]; [cbn; lia|].
    rewrite (decide_False (P := S tinner = 0%nat ∧ _)) by lia.
    destruct (decide (tinner = 0%nat)) as [->|Hne].
    + rewrite (decide_True (P := 0%nat = 0%nat ∧ _)) by done.
      rewrite bool_decide_eq_true_2 by done. cbn. lia.
    + rewrite bool_decide_eq_false_2 by done.
      rewrite (decide_False (P := tinner = 0%nat ∧ _)) by tauto. cbn. lia.
Qed.

Lemma EE_outer_line_count dexp ifdSampler mean_and_sd dsqrt uc fr e Minner m
    ACA compC oas ifd K acv count s s' :
  EE_outer dexp ifdSampler mean_and_sd dsqrt uc fr e Minner m ACA compC oas
    ifd K acv count s = Ok s' →
  length (es_theta_rows s') =
    (length (es_theta_rows s) +
     count * (if oas then Minner
              else if decide (Minner = 0%nat) then 0 else 1))%nat.
Proof.
  revert s. induction count as [|count IH]; intros s H; cbn in H.
  - simplify_eq. lia.
  - apply bind_Ok in H as ([s1 tm] & Hin & H).
    apply bind_Ok in H as (s2 & Hadj & H).
    apply IH in H. apply EE_inner_line_count in Hin.
    apply EE_adjust_Ok in Hadj as (D0' & _ & ->). cbn in H.
    rewrite H, Hin. destruct oas; [lia|].
    destruct (decide (Minner = 0%nat)).
    + rewrite decide_False by tauto. lia.
    + rewrite decide_True by done. lia.
Qed.

(** X14: Algorithm EE writes to the dzA file exactly when it writes to the
    theta file, and the same [t]: the two files have their lines of Algorithm
    EE at the same indices. *)
Theorem algorithm_EE_files_aligned
    (dexp : double → double)
    (ifdSampler : digraph → effects → list double → nat → bool → double →
                  double → rng → outcome ifd_sampled)
    (arcCorrection : digraph → double)
    (mean_and_sd : list double → double * double)
    (dsqrt : double → double)
    (useConditionalEstimation forbidReciprocity : bool)
    (g : digraph) (e : effects) (Mouter Minner sampler_m : nat)
    (ACA compC : double) (D0 theta : list double)
    (outputAllSteps useIFDsampler : bool) (ifd_K : double) (r : rng)
    (res : EE_result) :
  algorithm_EE dexp ifdSampler arcCorrection mean_and_sd dsqrt
    useConditionalEstimation forbidReciprocity g e Mouter Minner sampler_m
    ACA compC D0 theta outputAllSteps useIFDsampler ifd_K r = Ok res →
  map row_t (EE_dzA_rows res) = map row_t (EE_theta_rows res) ∧
  (outputAllSteps = false → Minner ≠ 0%nat →
   length (EE_theta_rows res) = Mouter) ∧
  (outputAllSteps = true →
   length (EE_theta_rows res) = (Mouter * Minner)%nat).
Proof.
  unfold algorithm_EE. intros H. apply bind_Ok in H as (sf & Hloop & H).
  simplify_eq. cbn. split.
  - eapply (EE_outer_invariant _ _ _ _ _ _ _ _ _ _ _ _ _ _ _
              (λ s, map row_t (es_dzA_rows s) = map row_t (es_theta_rows s)))
      in Hloop; [done| | |done].
    + intros tinner s s' HP Hstep.
      apply EE_step_lines in Hstep as (o & _ & -> & ->).
      rewrite !map_app, HP. by destruct (_ || _).
    + intros tm s s' HP Hadj. by apply EE_adjust_Ok in Hadj as (D0' & _ & ->).
  - apply EE_outer_line_count in Hloop. cbn in Hloop. split.
    + intros -> Hne. rewrite Hloop, decide_False by done. lia.
    + intros ->. rewrite Hloop. lia.
Qed.

(** X15: with [outputAllSteps], and at least one iteration of Algorithm EE,
    the last line of the theta file holds the estimate [ee_estimate] returns:
    after the column of the IFD sampler, if any, the values of [theta], and
    then the acceptance rate. *)
Theorem ee_estimate_last_line_is_theta
    (dexp : double → double)
    (ifdSampler : digraph → effects → list double → nat → bool → double →
                  double → rng → outcome ifd_sampled)
    (arcCorrection : digraph → double)
    (mean_and_sd : list double → double * double)
    (dsqrt : double → double)
    (useConditionalEstimation forbidReciprocity : bool)
    (g : digraph) (e : effects) (sampler_m M1_steps Mouter Msteps : nat)
    (ACA_S ACA_EE compC : double) (useIFDsampler : bool)
    (ifd_K : double) (r : rng) (est : estimate) :
  (0 < Mouter * Msteps)%nat →
  ee_estimate dexp ifdSampler arcCorrection mean_and_sd dsqrt
    useConditionalEstimation forbidReciprocity g e sampler_m M1_steps Mouter
    Msteps ACA_S ACA_EE compC true useIFDsampler ifd_K r = Ok est →
  ∃ line arc rate,
    last (est_theta_rows est) = Some line ∧
    row_values line = arc ++ est_theta est ++ [rate] ∧
    (useIFDsampler = false → arc = []).
Proof.
  intros Hpos H. unfold ee_estimate in H.
  apply bind_Ok in H as (M1 & _ & H).
  apply bind_Ok in H as (rs & _ & H).
  apply bind_Ok in H as (re & HEE & H). simplify_eq. cbn.
  unfold algorithm_EE in HEE. apply bind_Ok in HEE as (ef & Hloop & HEE).
  simplify_eq. cbn.
  pose proof (EE_outer_line_count _ _ _ _ _ _ _ _ _ _ _ _ _ _ _ _ _ _ Hloop)
    as Hlen. cbn in Hlen.
  assert (∀ line, last (es_theta_rows ef) = Some line →
            ∃ arc rate,
              row_values line = arc ++ es_theta ef ++ [rate] ∧
              (useIFDsampler = false → arc = [])) as Hlast.
  { revert Hloop.
    apply (EE_outer_invariant _ _ _ _ _ _ _ _ _ _ _ _ _ _ _
             (λ s, ∀ line, last (es_theta_rows s) = Some line →
                     ∃ arc rate,
                       row_values line = arc ++ es_theta s ++ [rate] ∧
                       (useIFDsampler = false → arc = []))).
    - intros tinner s s' _ Hstep.
      apply EE_step_lines in Hstep as (o & Hrun & -> & _). cbn [orb].
      intros line. rewrite last_snoc. intros [= <-]. cbn.
      exists (dr_arc_column o), (dr_rate o). split; [done|].
      intros ->. by apply run_sampler_basic_Ok in Hrun as (sres & _ & ->).
    - intros tm s s' HP Hadj.
      by apply EE_adjust_Ok in Hadj as (D0' & _ & ->).
    - by intros line. }
  destruct (es_theta_rows ef) as [|l0 rows _] using rev_ind;
    [cbn in Hlen; lia|].
  destruct (Hlast l0) as (arc & rate & Hvals & Harc); [by rewrite last_snoc|].
  exists l0, arc, rate. split; [|done].
  by rewrite app_assoc, last_snoc.
Qed.

Lemma S_step_widths dexp ifdSampler uc fr e M1 m ACA K acv t s s' :
  length (attr_indices e) = n_attr e →
  S_step dexp ifdSampler uc fr e M1 m ACA false K acv t s = Ok s' →
  length (ss_theta s) = n_params e ∧ length (ss_D0 s) = n_params e ∧
  Forall (has_width (S (n_params e))) (ss_rows s) →
  length (ss_theta s') = n_params e ∧ length (ss_D0 s') = n_params e ∧
  Forall (has_width (S (n_params e))) (ss_rows s').
Proof.
  intros Hidx Hstep (Hth & HD0 & Hrows).
  apply S_step_Ok in Hstep as (o & Hrun & _ & HD0' & Hth' & Hrows' & _).
  apply run_sampler_basic_Ok in Hrun as (res & Hres & ->).
  apply basicSampler_lengths in Hres as [Ha Hd]; [|done]. cbn in *.
  assert (length (ss_theta s') = n_params e) as Hlen
    by (rewrite Hth', length_zip_with, length_zip_with; lia).
  split; [done|]. split.
  - rewrite HD0', length_zip_with, length_zip_with. lia.
  - rewrite Hrows'. apply Forall_app. split; [done|].
    repeat constructor. unfold has_width. cbn.
    rewrite length_app. cbn. lia.
Qed.

Lemma EE_step_widths dexp ifdSampler uc fr e m ACA oas K acv tinner s s' :
  length (attr_indices e) = n_attr e →
  EE_step dexp ifdSampler uc fr e m ACA oas false K acv tinner s = Ok s' →
  length (es_theta s) = n_params e ∧ length (es_D0 s) = n_params e ∧
  length (es_dzA s) = n_params e ∧
  Forall (has_width (S (n_params e))) (es_theta_rows s) ∧
  Forall (has_width (n_params e)) (es_dzA_rows s) →
  length (es_theta s') = n_params e ∧ length (es_D0 s') = n_params e ∧
  length (es_dzA s') = n_params e ∧
  Forall (has_width (S (n_params e))) (es_theta_rows s') ∧
  Forall (has_width (n_params e)) (es_dzA_rows s').
Proof.
  intros Hidx Hstep (Hth & HD0 & Hdz & Hrt & Hrd).
  pose proof (EE_step_lines _ _ _ _ _ _ _ _ _ _ _ _ _ _ Hstep)
    as (o' & Hrun' & Hrt' & Hrd').
  apply EE_step_Ok in Hstep as (o & Hrun & _ & Hdz' & Hth' & HD0' & _).
  assert (o' = o) as -> by congruence.
  apply run_sampler_basic_Ok in Hrun as (res & Hres & ->).
  apply basicSampler_lengths in Hres as [Ha Hd]; [|done]. cbn in *.
  assert (length (es_dzA s') = n_params e) as Hlz
    by (rewrite Hdz', length_zip_with, length_zip_with; lia).
  assert (length (es_theta s') = n_params e) as Hlt
    by (rewrite Hth', length_zip_with, length_zip_with; lia).
  split; [done|]. split; [congruence|]. split; [done|]. split.
  - rewrite Hrt'. apply Forall_app. split; [done|].
    destruct (_ || _); repeat constructor. unfold has_width. cbn.
    rewrite length_app. cbn. lia.
  - rewrite Hrd'. apply Forall_app. split; [done|].
    destruct (_ || _); repeat constructor. done.
Qed.

(** With the basic sampler every line of the theta file carries, after the
    index, one value per parameter and the acceptance rate, and every line
    of the dzA file one value per parameter; [theta] and [Dmean] have one
    entry per parameter. *)
Lemma ee_estimate_line_widths
    (dexp : double → double)
    (ifdSampler : digraph → effects → list double → nat → bool → double →
                  double → rng → outcome ifd_sampled)
    (arcCorrection : digraph → double)
    (mean_and_sd : list double → double * double)
    (dsqrt : double → double)
    (useConditionalEstimation forbidReciprocity : bool)
    (g : digraph) (e : effects) (sampler_m M1_steps Mouter Msteps : nat)
    (ACA_S ACA_EE compC : double) (outputAllSteps : bool)
    (ifd_K : double) (r : rng) (est : estimate) :
  length (attr_indices e) = n_attr e →
  ee_estimate dexp ifdSampler arcCorrection mean_and_sd dsqrt
    useConditionalEstimation forbidReciprocity g e sampler_m M1_steps Mouter
    Msteps ACA_S ACA_EE compC outputAllSteps false ifd_K r = Ok est →
  length (est_theta est) = n_params e ∧
  length (est_Dmean est) = n_params e ∧
  Forall (has_width (S (n_params e))) (est_theta_rows est) ∧
  Forall (has_width (n_params e)) (est_dzA_rows est).
Proof.
  intros Hidx H. unfold ee_estimate in H.
  apply bind_Ok in H as (M1 & _ & H).
  apply bind_Ok in H as (rs & HS & H).
  apply bind_Ok in H as (re & HEE & H). simplify_eq. cbn.
  unfold algorithm_S in HS. apply bind_Ok in HS as (sf & HSloop & HS).
  unfold algorithm_EE in HEE. apply bind_Ok in HEE as (ef & HEEloop & HEE).
  simplify_eq. cbn in *.
  eapply (S_loop_invariant _ _ _ _ _ _ _ _ _ _ _
            (λ s, length (ss_theta s) = n_params e ∧
                  length (ss_D0 s) = n_params e ∧
                  Forall (has_width (S (n_params e))) (ss_rows s)))
    in HSloop as (HthS & HD0S & HrowsS).
  2: { intros t s s' HP Hstep. by eapply S_step_widths. }
  2: { cbn. by rewrite !length_replicate. }
  eapply (EE_outer_invariant _ _ _ _ _ _ _ _ _ _ _ _ _ _ _
            (λ s, length (es_theta s) = n_params e ∧
                  length (es_D0 s) = n_params e ∧
                  length (es_dzA s) = n_params e ∧
                  Forall (has_width (S (n_params e))) (es_theta_rows s) ∧
                  Forall (has_width (n_params e)) (es_dzA_rows s)))
    in HEEloop as (Hth & HD0 & Hdz & Hrt & Hrd).
  - split; [done|]. split; [by rewrite length_map|].
    split; [by apply Forall_app|done].
  - intros tinner s s' HP Hstep. by eapply EE_step_widths.
  - intros tm s s' (? & ? & ? & ? & ?) Hadj.
    apply EE_adjust_Ok in Hadj as (D0' & HD0' & ->). cbn.
    apply adjust_all_length in HD0'. repeat split; try done. congruence.
  - cbn. rewrite length_map, length_replicate. repeat split; try done.
Qed.

(** ** ee_estimate *)

Lemma Qc_pos_compare (q : Qc) : 0 < q → (q ?= 0) = Gt.
Proof.
  intros Hq. destruct (q ?= 0) eqn:Hc; [| |done].
  - apply Qceq_alt in Hc. subst. by destruct (irreflexivity Qclt 0).
  - assert (q < 0) as Hlt by done. destruct (irreflexivity Qclt 0). by etrans.
Qed.

Lemma compute_M1_small M1_steps n m :
  (M1_steps * n < m)%nat → (Z.of_nat m < uint_modulus)%Z →
  compute_M1 M1_steps n m = Ok 0%nat.
Proof.
  intros Hlt Hm. unfold compute_M1. rewrite decide_False by lia.
  rewrite wrap_small by lia. rewrite Z.div_small by lia. done.
Qed.

(** X16: when [M1_steps * num_nodes] is below [sampler_m], the quotient [M1]
    is 0: Algorithm S runs no iteration and writes no line, and [ee_estimate]
    is Algorithm EE started from [theta = 0] and a derivative estimate
    [sampler_m / 0], plus infinity, for every parameter. *)
Theorem ee_estimate_skips_algorithm_S
    (dexp : double → double)
    (ifdSampler : digraph → effects → list double → nat → bool → double →
                  double → rng → outcome ifd_sampled)
    (arcCorrection : digraph → double)
    (mean_and_sd : list double → double * double)
    (dsqrt : double → double)
    (useConditionalEstimation forbidReciprocity : bool)
    (g : digraph) (e : effects) (sampler_m M1_steps Mouter Msteps : nat)
    (ACA_S ACA_EE compC : double) (outputAllSteps useIFDsampler : bool)
    (ifd_K : double) (r : rng) :
  (M1_steps * num_nodes g < sampler_m)%nat →
  (Z.of_nat sampler_m < uint_modulus)%Z →
  ee_estimate dexp ifdSampler arcCorrection mean_and_sd dsqrt
    useConditionalEstimation forbidReciprocity g e sampler_m M1_steps Mouter
    Msteps ACA_S ACA_EE compC outputAllSteps useIFDsampler ifd_K r
  = (re ← algorithm_EE dexp ifdSampler arcCorrection mean_and_sd dsqrt
            useConditionalEstimation forbidReciprocity g e Mouter Msteps
            sampler_m ACA_EE compC (replicate (n_params e) PInf)
            (replicate (n_params e) dzero) outputAllSteps useIFDsampler
            ifd_K r;
     Ok (mk_estimate (EE_graph re) (EE_theta re)
           (replicate (n_params e) PInf) (EE_theta_rows re)
           (EE_dzA_rows re) (EE_rng re))).
Proof.
  intros Hlt Hm. unfold ee_estimate.
  rewrite compute_M1_small by done. cbn [mbind outcome_bind].
  unfold algorithm_S. cbn [S_loop mbind outcome_bind S_init ss_graph ss_theta
    ss_D0 ss_rows ss_rng S_graph S_theta S_Dmean S_rows S_rng].
  assert (map (λ d0, of_nat sampler_m / d0)%D (replicate (n_params e) dzero)
          = replicate (n_params e) PInf) as ->.
  { change (map ?f ?l) with (f <$> l). rewrite fmap_replicate. f_equal.
    unfold of_nat, dzero. cbn [ddiv]. rewrite decide_True by done.
    rewrite Qc_pos_compare; [done|]. apply Qc_of_nat_pos. lia. }
  done.
Qed.

Lemma algorithm_S_fails_with dexp ifdSampler arcCorrection uc fr g e M1 m
    ACA K r f :
  f ≠ FNoDraw →
  (∀ g' theta' r',
     fails_with f (basicSampler dexp g' e theta' m false uc fr r') = false) →
  fails_with f
    (algorithm_S dexp ifdSampler arcCorrection uc fr g e M1 m ACA false K r)
  = false.
Proof.
  intros Hf Hsampler. unfold algorithm_S.
  apply bind_fails_with; [|intros; by destruct f].
  generalize (S_init g e r) 0%nat. generalize M1 at 2.
  induction M0 as [|count IH]; intros s t; cbn [S_loop]; [by destruct f|].
  apply bind_fails_with; [|intros; apply IH].
  unfold S_step, run_sampler.
  apply bind_fails_with; [|intros; by destruct f].
  apply bind_fails_with; [apply Hsampler|intros; by destruct f].
Qed.

Lemma adjust_all_never_divides mean_and_sd dsqrt compC tm D0 :
  fails_with FDivide (adjust_all mean_and_sd dsqrt compC tm D0) = false.
Proof.
  unfold adjust_all. generalize (imap (λ l d0, (l, d0)) D0).
  induction l as [|x l IH]; cbn; [done|].
  apply bind_fails_with.
  - unfold adjust_D0. destruct (mean_and_sd _) as [mean sd].
    unfold assert. destruct (dzero <=? sd)%D; cbn [mbind outcome_bind];
      [|done].
    by destruct (dltb _ _).
  - intros y _. apply bind_fails_with; [apply IH|done].
Qed.

Lemma EE_inner_never_divides dexp ifdSampler uc fr e m ACA oas K acv count
    tinner tm s :
  fails_with FDivide
    (EE_inner dexp ifdSampler uc fr e m ACA oas false K acv count tinner
       tm s) = false.
Proof.
  revert tinner tm s.
  induction count as [|count IH]; intros tinner tm s; cbn [EE_inner];
    [done|].
  apply bind_fails_with; [|intros; apply IH].
  unfold EE_step, run_sampler. apply bind_fails_with; [|done].
  apply bind_fails_with; [apply basicSampler_never_divides|done].
Qed.

Lemma algorithm_EE_never_divides dexp ifdSampler arcCorrection
    mean_and_sd dsqrt uc fr g e Mouter Minner m ACA compC D0 theta oas K r :
  fails_with FDivide
    (algorithm_EE dexp ifdSampler arcCorrection mean_and_sd dsqrt uc fr g
       e Mouter Minner m ACA compC D0 theta oas false K r) = false.
Proof.
  unfold algorithm_EE. apply bind_fails_with; [|done].
  generalize (EE_init g e D0 theta r).
  induction Mouter as [|Mouter IH]; intros s; cbn [EE_outer]; [done|].
  apply bind_fails_with; [by apply EE_inner_never_divides|].
  intros [s1 tm] _. apply bind_fails_with; [|intros; apply IH].
  unfold EE_adjust. apply bind_fails_with; [|done].
  apply adjust_all_never_divides.
Qed.

(** X17: with the basic sampler the one integer division of the estimator is
    the one by [sampler_m] in [ee_estimate]: a run divides by zero exactly
    when [sampler_m] is 0, and then before any sampling. With the plain
    sampler Algorithm S fails no assertion. *)
Theorem ee_estimate_divides_by_zero_iff
    (dexp : double → double)
    (ifdSampler : digraph → effects → list double → nat → bool → double →
                  double → rng → outcome ifd_sampled)
    (arcCorrection : digraph → double)
    (mean_and_sd : list double → double * double)
    (dsqrt : double → double)
    (useConditionalEstimation forbidReciprocity : bool)
    (g : digraph) (e : effects) (sampler_m M1_steps Mouter Msteps : nat)
    (ACA_S ACA_EE compC : double) (outputAllSteps : bool)
    (ifd_K : double) (r : rng) :
  (ee_estimate dexp ifdSampler arcCorrection mean_and_sd dsqrt
     useConditionalEstimation forbidReciprocity g e sampler_m M1_steps Mouter
     Msteps ACA_S ACA_EE compC outputAllSteps false ifd_K r = DivideByZero
   ↔ sampler_m = 0%nat) ∧
  (∀ M1,
     fails_with FAssert
       (algorithm_S dexp ifdSampler arcCorrection false forbidReciprocity g e
          M1 sampler_m ACA_S false ifd_K r) = false).
Proof.
  split.
  2: { intros. apply algorithm_S_fails_with; [done|].
       intros. by apply basicSampler_plain_fails. }
  split.
  - intros H. destruct (decide (sampler_m = 0%nat)) as [|Hne]; [done|].
    exfalso.
    assert (fails_with FDivide
              (ee_estimate dexp ifdSampler arcCorrection mean_and_sd dsqrt
                 useConditionalEstimation forbidReciprocity g e sampler_m
                 M1_steps Mouter Msteps ACA_S ACA_EE compC outputAllSteps
                 false ifd_K r) = false)
      as Hno; [|by rewrite H in Hno].
    unfold ee_estimate. apply bind_fails_with.
    { unfold compute_M1. by rewrite decide_False. }
    intros M1 _. apply bind_fails_with.
    { apply algorithm_S_fails_with; [done|].
      intros. apply basicSampler_never_divides. }
    intros rs _. apply bind_fails_with; [|done].
    apply algorithm_EE_never_divides.
  - intros ->. done.
Qed.

(** ** The driver: return values and tables *)

Section DriverFacts.

Variable dexp : double → double.
Variable ifdSampler :
  digraph → effects → list double → nat → bool → double → double → rng →
  outcome ifd_sampled.
Variable arcCorrection : digraph → double.
Variable mean_and_sd : list double → double * double.
Variable dsqrt : double → double.

(** A run of [do_estimation] that returns: either one of the error returns,
    or the run of [ee_estimate] between the headers and the lines. *)
Lemma do_estimation_Ok c tasknum w r rv events :
  do_estimation dexp ifdSampler arcCorrection mean_and_sd dsqrt c tasknum w r
  = Ok (rv, events) →
  (rv = (-1)%Z ∧ wrote_output events = false ∧ closed_files events = [] ∧
   ∃ msg, reported_errors events = [msg]) ∨
  (rv = 0%Z ∧
   ∃ g attr_idx dyadic_funcs dyadic_names est,
     build_attr_indices_from_names w g = Some attr_idx ∧
     build_dyadic_indices_from_names w g = Some (dyadic_funcs, dyadic_names) ∧
     (useIFDsampler c && lists_Arc c = false) ∧
     ee_estimate dexp ifdSampler arcCorrection mean_and_sd dsqrt
       (cfg_useConditionalEstimation c) (cfg_forbidReciprocity c) g
       (mk_effects (cfg_change_stats_funcs c) (cfg_attr_change_stats_funcs c)
          attr_idx dyadic_funcs)
       (samplerSteps c) (Ssteps c) (EEsteps c) (EEinnerSteps c) (ACA_S c)
       (ACA_EE c) (compC c) (outputAllSteps c) (useIFDsampler c) (ifd_K c) r
     = Ok est ∧
     let theta_name := task_filename (theta_file_prefix c) tasknum ".txt" in
     let dzA_name := task_filename (dzA_file_prefix c) tasknum ".txt" in
     let sim_name := task_filename (sim_net_file_prefix c) tasknum ".net" in
     let header := fileheader c dyadic_names in
     events =
       [Fopen (arclist_filename c) "r" true;
        Fopen theta_name "w" true;
        Fopen dzA_name "w" true;
        Fheader theta_name (header ++ ["AcceptanceRate"%string]);
        Fheader dzA_name header;
        Frows theta_name (est_theta_rows est);
        Frows dzA_name (est_dzA_rows est);
        Fclose theta_name; Fclose dzA_name] ++
       (if outputSimulatedNetwork c
        then [Fopen sim_name "w" (writable w sim_name);
              Fnetwork sim_name (est_graph est); Fclose sim_name]
        else [])).
Proof.
  unfold do_estimation.
  destruct (readable w (arclist_filename c)); cbn [negb].
  2: { intros [= <- <-]. left. repeat split. by eexists. }
  destruct (match zone_filename c with
            | Some f => add_snowball_zones_to_digraph w
                          (load_digraph_from_arclist_file w) f
            | None => Some (load_digraph_from_arclist_file w)
            end) as [g|].
  2: { intros [= <- <-]. left. repeat split. by eexists. }
  destruct (build_attr_indices_from_names w g) as [idx|] eqn:Hattr.
  2: { intros [= <- <-]. left. repeat split. by eexists. }
  destruct (build_dyadic_indices_from_names w g) as [[df dn]|] eqn:Hdy.
  2: { intros [= <- <-]. left. repeat split. by eexists. }
  destruct (writable w (task_filename (theta_file_prefix c) tasknum ".txt"));
    cbn [negb].
  2: { intros [= <- <-]. left. repeat split. by eexists. }
  destruct (useIFDsampler c && lists_Arc c) eqn:Harc.
  { intros [= <- <-]. left. repeat split. by eexists. }
  destruct (writable w (task_filename (dzA_file_prefix c) tasknum ".txt"));
    cbn [negb].
  2: { intros [= <- <-]. left. repeat split. by eexists. }
  intros H. apply bind_Ok in H as (est & Hest & H). right.
  injection H as <- <-. split; [done|].
  exists g, idx, df, dn, est. repeat split; try done.
  cbn zeta. by destruct (outputSimulatedNetwork c).
Qed.

(** X18: [do_estimation] returns -1 after exactly one error message, having
    written nothing to any file and closed none; it returns 0 after the
    headers and the lines, without an error message, and having closed every
    file it opened for writing. *)
Theorem do_estimation_return_value
    (c : config) (tasknum : nat) (w : world) (r : rng) (rv : Z)
    (events : list event) :
  do_estimation dexp ifdSampler arcCorrection mean_and_sd dsqrt c tasknum w r
  = Ok (rv, events) →
  (rv = (-1)%Z ∧ wrote_output events = false ∧ closed_files events = [] ∧
   ∃ msg, reported_errors events = [msg]) ∨
  (rv = 0%Z ∧ wrote_output events = true ∧ reported_errors events = [] ∧
   ∀ name, name ∈ opened_for_writing events → name ∈ closed_files events).
Proof.
  intros H. apply do_estimation_Ok in H as [H|(-> & H)]; [by left|right].
  destruct H as (g & idx & df & dn & est & _ & _ & _ & _ & ->).
  split; [done|]. split; [done|].
  split; [by destruct (outputSimulatedNetwork c)|].
  intros name. unfold opened_for_writing, closed_files.
  rewrite !flat_map_app. cbn.
  destruct (outputSimulatedNetwork c); cbn; [|done].
  destruct (writable w _); cbn; [done|].
  rewrite !elem_of_cons. tauto.
Qed.

(** X19: with the basic sampler and a configuration whose arrays of names
    match its arrays of functions, the two output files are tables: every
    line of the theta file, and of the dzA file, has a field for every column
    of the header of its file. *)
Theorem do_estimation_writes_tables
    (c : config) (tasknum : nat) (w : world) (r : rng)
    (events : list event) :
  names_match c w →
  useIFDsampler c = false →
  do_estimation dexp ifdSampler arcCorrection mean_and_sd dsqrt c tasknum w r
  = Ok (0%Z, events) →
  ∃ header rows_theta rows_dzA,
    Fheader (task_filename (theta_file_prefix c) tasknum ".txt")
      (header ++ ["AcceptanceRate"%string]) ∈ events ∧
    Fheader (task_filename (dzA_file_prefix c) tasknum ".txt") header
      ∈ events ∧
    Frows (task_filename (theta_file_prefix c) tasknum ".txt") rows_theta
      ∈ events ∧
    Frows (task_filename (dzA_file_prefix c) tasknum ".txt") rows_dzA
      ∈ events ∧
    Forall (fits (header ++ ["AcceptanceRate"%string])) rows_theta ∧
    Forall (fits header) rows_dzA.
Proof.
  intros (Hp & Hap & Han & Hidx & Hdy) Hifd H.
  apply do_estimation_Ok in H as [(? & _)|(_ & H)]; [done|].
  destruct H as (g & idx & df & dn & est & Hattr & Hdyad & _ & Hest & ->).
  rewrite Hifd in Hest. cbn zeta.
  apply ee_estimate_line_widths in Hest
    as (_ & _ & Hrt & Hrd); [|cbn; by eapply Hidx].
  set (e := mk_effects _ _ _ _) in *.
  assert (length (fileheader c dn) = S (n_params e)) as Hlen.
  { unfold fileheader, n_params, n_attr, n_dyadic. rewrite Hifd. cbn.
    rewrite !length_app, length_zip_with, Hp, Hap, Han.
    rewrite (Hdy _ _ _ Hdyad). lia. }
  exists (fileheader c dn), (est_theta_rows est), (est_dzA_rows est).
  repeat split.
  - do 3 right. left.
  - do 4 right. left.
  - do 5 right. left.
  - do 6 right. left.
  - eapply Forall_impl; [exact Hrt|]. intros line Hw.
    unfold fits, has_width in *. rewrite length_app, Hlen, Hw. cbn. lia.
  - eapply Forall_impl; [exact Hrd|]. intros line Hw.
    unfold fits, has_width in *. by rewrite Hlen, Hw.
Qed.

End DriverFacts.

(** ** Runs of the embedding *)

(** A closed equation or decidable fact, by evaluation. *)
Ltac by_evaluation :=
  first [ vm_compute; reflexivity
        | apply (bool_decide_unpack _); vm_compute; exact I ].




(** C3 fails on the code: with [theta = +infinity] the sum [total] and
    [exp(total)] are plus infinity, not finite, and the proposal is
    accepted. *)
Lemma infinite_exp_total_is_accepted :
  (λ sp : sweep * proposal,
     (is_finite (exp_model (pr_total sp.2)), pr_accepted sp.2,
      sw_accepted sp.1)) <$>
    ok (sampler_step exp_model Arc_only [PInf] true false false
          (mk_sweep two_nodes (tape_01 1) [dzero] [dzero] 0))
  = Some (false, true, 1%nat).
Proof. by_evaluation. Qed.

(** The proposal of the counterexample, through the theorem. *)
Lemma accept_iff_u_lt_exp_total_witness :
  ∃ s' pr,
    sampler_step exp_model Arc_only [PInf] true false false
      (mk_sweep two_nodes (tape_01 1) [dzero] [dzero] 0) = Ok (s', pr) ∧
    pr_accepted pr = (pr_u pr <? exp_model (pr_total pr))%D ∧
    (exp_model (pr_total pr) = PInf → pr_accepted pr = true).
Proof.
  eexists. eexists. split; [by_evaluation|].
  epose proof (accept_iff_u_lt_exp_total exp_model Arc_only [PInf] true false
               false (mk_sweep two_nodes (tape_01 1) [dzero] [dzero] 0)) as T.
  edestruct T
    as (_ & _ & _ & Hacc & _ & Hinf & _);
    [by_evaluation|].
  split; assumption.
Defined.

(** A sweep without [performMove] that accepts a delete and an add. *)
Lemma basicSampler_restores_arcs_witness :
  ∃ res,
    basicSampler exp_model one_arc Arc_only [dzero] 2 false false false
      tape_01_10 = Ok res ∧
    arcs (sa_graph res) = arcs one_arc.
Proof.
  eexists. split; [by_evaluation|].
  epose proof (basicSampler_restores_arcs exp_model one_arc Arc_only [dzero] 2
                 false false tape_01_10) as T.
  edestruct T as [Harcs _]; [by_evaluation|].
  exact Harcs.
Defined.

(** C6 fails on the code: the change statistic of the isolates count is
    negative, and so is the sum over the accepted add. *)
Lemma isolates_sum_is_negative :
  sa_add <$>
    ok (basicSampler exp_model two_nodes Isolates_only [dzero] 1 false false
          false (tape_01 1))
  = Some [Fin (- 2)] ∧
  (dzero <=? Fin (- 2))%D = false.
Proof. split; by_evaluation. Qed.

(** The change statistic of Arc is 1. *)
Lemma Arc_only_nonneg : nonneg_effects Arc_only.
Proof.
  repeat split; cbn; intros; try by (exfalso; eapply not_elem_of_nil).
  match goal with H : _ ∈ [changeArc] |- _ =>
    apply list_elem_of_singleton in H as -> end.
  reflexivity.
Defined.

(** A sweep that accepts an add and a delete of the Arc effect. *)
Lemma change_stats_sums_nonneg_witness :
  ∃ res,
    basicSampler exp_model two_nodes Arc_only [dzero] 2 true false false
      (tape_01 2) = Ok res ∧
    Forall nonneg (sa_add res) ∧ Forall nonneg (sa_del res).
Proof.
  eexists. split; [by_evaluation|].
  eapply (change_stats_sums_nonneg exp_model two_nodes Arc_only [dzero] 2
            true false false (tape_01 2));
    [exact Arc_only_nonneg|by_evaluation].
Defined.

(** A sweep on the snowball sample that adds [0 -> 1], inside zone 0. *)
Lemma conditional_estimation_fixes_outermost_wave_witness :
  ∃ res,
    basicSampler exp_model snowball Arc_only [dzero] 1 true true false
      (tape_01 1) = Ok res ∧
    isArc (sa_graph res) 0 1 = true ∧
    (∀ a b, outermost snowball a ∨ outermost snowball b →
       isArc (sa_graph res) a b = isArc snowball a b).
Proof.
  eexists. split; [by_evaluation|]. split; [by_evaluation|].
  epose proof (conditional_estimation_fixes_outermost_wave exp_model snowball
                 Arc_only [dzero] 1 true false (tape_01 1)) as T.
  edestruct T as [Hout _]; [by_evaluation|].
  exact Hout.
Defined.





(** C10 fails on the code: a sweep with [performMove] that accepts the add
    of [0 -> 1] and then its delete accepts every move, and the flat list
    still describes the graph. *)
Lemma accepted_moves_can_cancel :
  (λ res, (sa_rate res, bool_decide (allarcs_consistent (sa_graph res)))) <$>
    ok (basicSampler exp_model two_nodes Arc_only [dzero] 2 true false false
          (tape_01 2))
  = Some (Fin 1, true).
Proof. by_evaluation. Qed.

(** A sweep with [performMove] that accepts the add of [0 -> 1]. *)
Lemma basicSampler_leaves_allarcs_witness :
  ∃ res,
    basicSampler exp_model two_nodes Arc_only [dzero] 1 true false false
      (tape_01 1) = Ok res ∧
    allarcs (sa_graph res) = allarcs two_nodes ∧
    (allarcs_consistent (sa_graph res) ↔ arcs (sa_graph res) = arcs two_nodes).
Proof.
  eexists. split; [by_evaluation|].
  epose proof (basicSampler_leaves_allarcs exp_model two_nodes Arc_only
               [dzero] 1 true false false (tape_01 1)) as T.
  edestruct T
    as (Hall & Hiff & _);
    [by_evaluation|].
  split; [exact Hall|].
  apply Hiff. by_evaluation.
Defined.

(** C4 fails on the code: with Arc listed and the IFD sampler on, the theta
    output file has been opened for writing when the check returns -1. *)
Lemma theta_file_is_opened_before_the_check :
  (λ res : Z * list event, (res.1, opened_for_writing res.2)) <$>
    ok (do_estimation exp_model no_ifdSampler no_arcCorrection
          mean_and_sd_model sqrt_model (config_of ["Arc"%string] true) 0
          (world_of two_nodes) (tape_01 0))
  = Some ((-1)%Z, ["theta_0.txt"%string]).
Proof. vm_compute. reflexivity. Qed.

(** The name of the parameter is compared without regard to case. *)
Lemma do_estimation_rejects_Arc_with_IFD_witness :
  ∃ events,
    do_estimation exp_model no_ifdSampler no_arcCorrection mean_and_sd_model
      sqrt_model (config_of ["arc"%string] true) 0 (world_of two_nodes)
      (tape_01 0) = Ok ((-1)%Z, events) ∧
    wrote_output events = false.
Proof.
  epose proof (do_estimation_rejects_Arc_with_IFD exp_model no_ifdSampler
               no_arcCorrection mean_and_sd_model sqrt_model
               (config_of ["arc"%string] true) 0 (world_of two_nodes)
               (tape_01 0)) as T.
  edestruct T
    as (events & Hrun & Hout & _);
    [reflexivity..|].
  exists events. split; assumption.
Defined.

(** ** Runs for the further properties *)

Lemma one_arc_arcs i j : isArc one_arc i j = true ↔ i = 0%nat ∧ j = 1%nat.
Proof.
  rewrite isArc_true. cbn. rewrite elem_of_union, elem_of_singleton.
  split.
  - intros [[= -> ->]|Hin]; [done|]. by apply elem_of_empty in Hin.
  - intros [-> ->]. by left.
Qed.

Lemma one_arc_no_reciprocated : no_reciprocated one_arc.
Proof. intros i j _ [-> ->]%one_arc_arcs. by_evaluation. Qed.

Lemma one_arc_in_range : arcs_in_range one_arc.
Proof. intros i j [-> ->]%one_arc_arcs. cbn. lia. Qed.

Lemma snowball_is_snowball_sample : snowball_sample snowball.
Proof.
  split.
  - intros v Hv. cbn in Hv.
    repeat (apply elem_of_cons in Hv as [->|Hv]); try (cbn; lia).
    by apply elem_of_nil in Hv.
  - intros i j. unfold isArcIgnoreDirection.
    rewrite orb_true_iff, !isArc_true. cbn.
    rewrite !elem_of_union, !elem_of_singleton.
    intros [[H|[H|[H|H]]]|[H|[H|[H|H]]]]; simplify_eq;
      try (by apply elem_of_empty in H); by vm_compute.
Qed.

Lemma Arc_counts_arcs : change_statistic_of Arc_only 0 arc_count.
Proof.
  intros g i j Hij%isArc_false. cbn. unfold changeArc, arc_count.
  do 2 f_equal. rewrite size_union by by apply disjoint_singleton_l.
  rewrite size_singleton, Nat2Z.inj_add, Z2Qc_inj_add.
  change (Z.of_nat 1) with 1%Z. rewrite Z2Qc_inj_1. ring.
Qed.

Lemma Arc_only_finite : finite_effects Arc_only.
Proof. intros g i j. by repeat constructor. Qed.

Lemma config_of_names_match names g :
  names_match (config_of names false) (world_of g).
Proof.
  repeat split; cbn; try done.
  - by rewrite length_map.
  - by intros _ idx [= <-].
  - by intros _ fs ns [= <- <-].
Qed.


(** A sweep on the snowball sample: no assertion fails. *)
Lemma conditional_estimation_assertions_hold_witness :
  fails_with FAssert
    (basicSampler exp_model snowball Arc_only [dzero] 1 true true false
       (tape_01 1)) = false ∧
  is_Some (ok (basicSampler exp_model snowball Arc_only [dzero] 1 true true
                 false (tape_01 1))).
Proof.
  split; [|by_evaluation].
  apply (conditional_estimation_assertions_hold exp_model snowball Arc_only
           [dzero] 1 true (tape_01 1)).
  exact snowball_is_snowball_sample.
Defined.

(** A sweep under conditional estimation that proposes the existing arc
    [0 -> 2] and accepts: the proposal counts as an add. *)
Lemma conditional_estimation_never_deletes_witness :
  ∃ res,
    basicSampler exp_model snowball Arc_only [dzero] 1 true true false
      tape_02 = Ok res ∧
    sa_add res = [Fin 1] ∧
    sa_del res = replicate (n_params Arc_only) dzero.
Proof.
  eexists. split; [by_evaluation|]. split; [by_evaluation|].
  epose proof (conditional_estimation_never_deletes exp_model snowball
                 Arc_only [dzero] 1 true false tape_02) as T.
  edestruct T as [Hdel _]; [by_evaluation|].
  exact Hdel.
Defined.

(** A sweep with [forbidReciprocity] on the graph with the arc [0 -> 1]:
    the proposal of [(1, 0)] is drawn again. *)
Lemma forbidReciprocity_keeps_no_reciprocated_witness :
  ∃ res,
    basicSampler exp_model one_arc Arc_only [dzero] 1 true false true
      tape_10_01 = Ok res ∧
    no_reciprocated (sa_graph res).
Proof.
  eexists. split; [by_evaluation|].
  eapply (forbidReciprocity_keeps_no_reciprocated exp_model one_arc Arc_only
            [dzero] 1 true tape_10_01);
    [by_evaluation|exact one_arc_no_reciprocated].
Defined.

(** A sweep that adds the arc [1 -> 0] to the graph with the arc
    [0 -> 1]. *)
Lemma basicSampler_keeps_arcs_in_range_witness :
  ∃ res,
    basicSampler exp_model one_arc Arc_only [dzero] 1 true false false
      (mk_rng [1; 0]%nat [half]) = Ok res ∧
    isArc (sa_graph res) 1 0 = true ∧
    arcs_in_range (sa_graph res).
Proof.
  eexists. split; [by_evaluation|]. split; [by_evaluation|].
  eapply (basicSampler_keeps_arcs_in_range exp_model one_arc Arc_only
            [dzero] 1 true false (mk_rng [1; 0]%nat [half]));
    [by_evaluation|exact one_arc_in_range].
Defined.



(** A sweep of two proposals at [theta = 0]. *)
Lemma basicSampler_accepts_all_at_zero_theta_witness :
  ∃ res,
    basicSampler exp_model two_nodes Arc_only [dzero] 2 false false false
      (tape_01 2) = Ok res ∧
    sa_rate res = Fin 1.
Proof.
  eexists. split; [by_evaluation|].
  epose proof (basicSampler_accepts_all_at_zero_theta exp_model two_nodes
                 Arc_only [dzero] 2 false false false (tape_01 2)) as T.
  edestruct T as [Hrate _];
    [by_evaluation|exact Arc_only_finite|by repeat constructor|lia
    |by_evaluation|].
  exact Hrate.
Defined.

(** A run of Algorithm S whose sweep accepts a delete and an add. *)
Lemma algorithm_S_leaves_arcs_witness :
  ∃ res,
    algorithm_S exp_model no_ifdSampler no_arcCorrection false false one_arc
      Arc_only 1 2 ACA_S_example false dzero tape_01_10 = Ok res ∧
    arcs (S_graph res) = arcs one_arc.
Proof.
  eexists. split; [by_evaluation|].
  epose proof (algorithm_S_leaves_arcs exp_model no_ifdSampler
                 no_arcCorrection false false one_arc Arc_only 1 2
                 ACA_S_example dzero tape_01_10) as T.
  edestruct T as [Harcs _]; [by_evaluation|].
  exact Harcs.
Defined.



(** The values 0 and 2 of [theta[l]]: mean 1 and standard deviation 1. *)
Lemma adjust_D0_factor_witness :
  mean_and_sd_model [Fin 0; Fin 2] = (Fin 1, Fin 1) ∧
  adjust_D0 mean_and_sd_model sqrt_model (Fin (Q2Qc (1 # 100)))
    [Fin 0; Fin 2] (Fin 1)
  = Ok (Fin 1 * sqrt_model (Fin (Q2Qc (1 # 100) * floored_magnitude 1 / 1)))%D.
Proof.
  split; [by_evaluation|].
  apply (adjust_D0_factor mean_and_sd_model sqrt_model (Q2Qc (1 # 100)) 1 1
           [Fin 0; Fin 2] (Fin 1)); [by_evaluation|reflexivity].
Defined.

(** A run of two outer and two inner iterations without
    [outputAllSteps]. *)
Lemma algorithm_EE_files_aligned_witness :
  ∃ res,
    algorithm_EE exp_model no_ifdSampler no_arcCorrection mean_and_sd_model
      sqrt_model false false two_nodes Arc_only 2 2 1 ACA_EE_default
      compC_default [Fin 1] [dzero] false false dzero (tape_01 4) = Ok res ∧
    map row_t (EE_theta_rows res) = [0; 2]%Z ∧
    map row_t (EE_dzA_rows res) = map row_t (EE_theta_rows res).
Proof.
  eexists. split; [by_evaluation|]. split; [by_evaluation|].
  epose proof (algorithm_EE_files_aligned exp_model no_ifdSampler
                 no_arcCorrection mean_and_sd_model sqrt_model false false
                 two_nodes Arc_only 2 2 1 ACA_EE_default compC_default
                 [Fin 1] [dzero] false false dzero (tape_01 4)) as T.
  edestruct T as [Hrows _]; [by_evaluation|].
  exact Hrows.
Defined.

(** A run of [ee_estimate] with [outputAllSteps]. *)
Lemma ee_estimate_last_line_is_theta_witness :
  ∃ est line arc rate,
    ee_estimate exp_model no_ifdSampler no_arcCorrection mean_and_sd_model
      sqrt_model false false two_nodes Arc_only 1 1 2 2 ACA_S_example
      ACA_EE_default compC_default true false dzero (tape_01 6) = Ok est ∧
    last (est_theta_rows est) = Some line ∧
    row_values line = arc ++ est_theta est ++ [rate].
Proof.
  eexists.
  epose proof (ee_estimate_last_line_is_theta exp_model no_ifdSampler
                 no_arcCorrection mean_and_sd_model sqrt_model false false
                 two_nodes Arc_only 1 1 2 2 ACA_S_example ACA_EE_default
                 compC_default false dzero (tape_01 6)) as T.
  edestruct T as (line & arc & rate & Hlast & Hvals & _);
    [lia|by_evaluation|].
  exists line, arc, rate. split; [by_evaluation|]. split; assumption.
Defined.

(** Three proposals per step on a graph of two nodes, and one step of
    Algorithm S asked for: [M1 = 2 / 3 = 0]. *)
Lemma ee_estimate_skips_algorithm_S_witness :
  ee_estimate exp_model no_ifdSampler no_arcCorrection mean_and_sd_model
    sqrt_model false false two_nodes Arc_only 3 1 1 1 ACA_S_example
    ACA_EE_default compC_default false false dzero (tape_01 3)
  = (re ← algorithm_EE exp_model no_ifdSampler no_arcCorrection
            mean_and_sd_model sqrt_model false false two_nodes Arc_only 1 1
            3 ACA_EE_default compC_default
            (replicate (n_params Arc_only) PInf)
            (replicate (n_params Arc_only) dzero) false false dzero
            (tape_01 3);
     Ok (mk_estimate (EE_graph re) (EE_theta re)
           (replicate (n_params Arc_only) PInf) (EE_theta_rows re)
           (EE_dzA_rows re) (EE_rng re))).
Proof.
  apply (ee_estimate_skips_algorithm_S exp_model no_ifdSampler
           no_arcCorrection mean_and_sd_model sqrt_model false false
           two_nodes Arc_only 3 1 1 1 ACA_S_example ACA_EE_default
           compC_default false false dzero (tape_01 3));
    [cbn; lia|reflexivity].
Defined.

(** A run of [do_estimation] that returns 0. *)
Lemma do_estimation_return_value_witness :
  ∃ events,
    do_estimation exp_model no_ifdSampler no_arcCorrection mean_and_sd_model
      sqrt_model (config_of ["Arc"%string] false) 0 (world_of two_nodes)
      (tape_01 6) = Ok (0%Z, events) ∧
    reported_errors events = [] ∧
    ∀ name, name ∈ opened_for_writing events → name ∈ closed_files events.
Proof.
  eexists. split; [by_evaluation|].
  epose proof (do_estimation_return_value exp_model no_ifdSampler
                 no_arcCorrection mean_and_sd_model sqrt_model
                 (config_of ["Arc"%string] false) 0 (world_of two_nodes)
                 (tape_01 6) 0%Z) as T.
  edestruct T as [(Hrv & _)|(_ & _ & Herr & Hclosed)];
    [by_evaluation|discriminate Hrv|].
  split; assumption.
Defined.

(** The run above: its lines fit its headers. *)
Lemma do_estimation_writes_tables_witness :
  ∃ events header rows_theta rows_dzA,
    do_estimation exp_model no_ifdSampler no_arcCorrection mean_and_sd_model
      sqrt_model (config_of ["Arc"%string] false) 0 (world_of two_nodes)
      (tape_01 6) = Ok (0%Z, events) ∧
    Frows "theta_0.txt" rows_theta ∈ events ∧
    Frows "dzA_0.txt" rows_dzA ∈ events ∧
    Forall (fits (header ++ ["AcceptanceRate"%string])) rows_theta ∧
    Forall (fits header) rows_dzA.
Proof.
  eexists.
  epose proof (do_estimation_writes_tables exp_model no_ifdSampler
                 no_arcCorrection mean_and_sd_model sqrt_model
                 (config_of ["Arc"%string] false) 0 (world_of two_nodes)
                 (tape_01 6) _ (config_of_names_match _ _)) as T.
  edestruct T as (header & rows_theta & rows_dzA & _ & _ & Ht & Hd & Hft & Hfd);
    [reflexivity|by_evaluation|].
  exists header, rows_theta, rows_dzA.
  split; [by_evaluation|]. repeat split; assumption.
Defined.
